(** * Binary Annotator Pro: the compression detector

    A shallow embedding of [backend/python_tools/compression_detector.py]
    (bit-stream reader, canonical Huffman code generator, the byte-level
    decoders, the ECG lead layouts, the probe driver and the best-candidate
    selection), with the properties of the specification stated over it.

    Conventions.
    - Python [bytes] are lists of [Byte.byte]; indexing a blob yields the
      integer value of the byte, as in Python.
    - Python integers are [Z]; bit operations are [Z.land], [Z.lor],
      [Z.shiftl], [Z.shiftr].
    - A decoder that may raise returns a [result]: [Ok v] or [Raise msg].
    - Python floats are modelled by the rational they denote (every finite
      binary64 number is a rational); the rounding of an arithmetic result to
      binary64 is a parameter [rnd] of the sections that do float arithmetic.
    - Loops whose trip count is not syntactic take a fuel argument and return
      [None] when it runs out; the fuel the decoders pass is shown to be
      enough on every input. *)

From Stdlib Require Import ZArith QArith Lia.
From Stdlib.Strings Require Import Byte.
From stdpp Require Import base option list numbers gmap strings sorting pretty.

Local Open Scope Z_scope.

(** ** Bytes, integers, exceptions *)

Abbreviation bytes := (list byte).

Definition byte_val (b : byte) : Z := Z.of_N (Byte.to_N b).

(** [len(data)] *)
Definition len {A} (l : list A) : Z := Z.of_nat (length l).

(** [data[i]] for an index that is in range (the callers below check it
    first); out of range the model yields the zero byte, which no path of the
    code reaches. [getbyte] keeps the byte, [index] gives its integer. *)
Definition getbyte (data : bytes) (i : Z) : byte :=
  default x00 (data !! Z.to_nat i).

Definition index (data : bytes) (i : Z) : Z := byte_val (getbyte data i).

(** [data[i:]] for [0 <= i] *)
Definition slice_from (data : bytes) (i : Z) : bytes := drop (Z.to_nat i) data.

(** [data[i:j]] for [0 <= i <= j] *)
Definition slice (data : bytes) (i j : Z) : bytes :=
  take (Z.to_nat j - Z.to_nat i)%nat (drop (Z.to_nat i) data).

Inductive result (A : Type) : Type :=
| Ok (a : A)
| Raise (msg : string).
Arguments Ok {A} a.
Arguments Raise {A} msg.

(** The exception monad, with stdpp's [x ← r; k] notation. *)
#[global] Instance result_ret : MRet result := fun A a => Ok a.
#[global] Instance result_bind : MBind result := fun A B k r =>
  match r with
  | Ok a => k a
  | Raise msg => Raise msg
  end.

(** [bytearray.append(v)]: a value outside [range(256)] raises. *)
Definition bytearray_append (out : bytes) (v : Z) : result bytes :=
  if (0 <=? v) && (v <? 256) then
    match Byte.of_N (Z.to_N v) with
    | Some b => Ok (out ++ [b])
    | None => Raise "byte must be in range(0, 256)"
    end
  else Raise "byte must be in range(0, 256)".

(** ** The bit-stream reader (class [BitStream]) *)

Module BitStream.

Record t : Type := mk {
  data : bytes;
  pos : Z;
  bit_pos : Z;
  current_byte : Z
}.

(** [__init__] *)
Definition init (blob : bytes) : t :=
  {| data := blob; pos := 0; bit_pos := 0; current_byte := 0 |}.

(** [has_bits(count)] *)
Definition has_bits (s : t) (count : Z) : bool :=
  pos s * 8 + bit_pos s + count <=? len (data s) * 8.

(** [read_bit()]: the bit and the state after the call. *)
Definition read_bit (s : t) : Z * t :=
  if negb (has_bits s 1) then (0, s)
  else
    let s1 :=
      if bit_pos s =? 0
      then {| data := data s; pos := pos s + 1; bit_pos := bit_pos s;
              current_byte := index (data s) (pos s) |}
      else s in
    let bit := Z.land (Z.shiftr (current_byte s1) (7 - bit_pos s1)) 1 in
    (bit, {| data := data s1; pos := pos s1;
             bit_pos := (bit_pos s1 + 1) mod 8;
             current_byte := current_byte s1 |}).

(** The loop of [read_bits]: [result = (result << 1) | self.read_bit()]. *)
Fixpoint read_bits_loop (n : nat) (result : Z) (s : t) : Z * t :=
  match n with
  | O => (result, s)
  | S n' =>
      let '(b, s') := read_bit s in
      read_bits_loop n' (Z.lor (Z.shiftl result 1) b) s'
  end.

(** [read_bits(count)] *)
Definition read_bits (s : t) (count : Z) : Z * t :=
  read_bits_loop (Z.to_nat count) 0 s.

(** [peek_bits(count)]: reads, then restores the three saved fields. *)
Definition peek_bits (s : t) (count : Z) : Z * t :=
  let old_pos := pos s in
  let old_bit_pos := bit_pos s in
  let old_current := current_byte s in
  let '(result, s') := read_bits s count in
  (result, {| data := data s'; pos := old_pos; bit_pos := old_bit_pos;
              current_byte := old_current |}).

(** Whether a call of [read_bit] in state [s] takes a bit from the blob
    (it passes the end-of-input check) or returns the filler 0. *)
Definition takes_bit (s : t) : Z := if has_bits s 1 then 1 else 0.

(** States reachable from the initial one by [read_bit] calls, with the
    number of bits consumed so far. [read_bits] is a sequence of such
    calls and [peek_bits] restores the state it started from. *)
Inductive reachable (blob : bytes) : Z -> t -> Prop :=
| reach_init : reachable blob 0 (init blob)
| reach_read_bit c s :
    reachable blob c s ->
    reachable blob (c + takes_bit s) (snd (read_bit s)).

End BitStream.

(** ** Canonical Huffman code generator *)

(** A Python [dict] iterated in insertion order: an association list whose
    keys are distinct. [d[k] = v] overwrites in place or appends. *)
Fixpoint dict_set {V} (d : list (Z * V)) (k : Z) (v : V) : list (Z * V) :=
  match d with
  | [] => [(k, v)]
  | (k', v') :: d' =>
      if k' =? k then (k, v) :: d' else (k', v') :: dict_set d' k v
  end.

(** [enumerate(l)] *)
Definition enumerate {A} (l : list A) : list (Z * A) :=
  zip (seqZ 0 (len l)) l.

(** [sorted(l)] on integers *)
Definition sorted (l : list Z) : list Z := merge_sort Z.le l.

(** The first loop: [length_groups[length].append(symbol)] for every symbol
    of positive length. *)
Definition add_to_group (groups : gmap Z (list Z)) (entry : Z * Z)
  : gmap Z (list Z) :=
  let '(symbol, length) := entry in
  if 0 <? length
  then <[length := default [] (groups !! length) ++ [symbol]]> groups
  else groups.

Definition length_groups (bit_lengths : list Z) : gmap Z (list Z) :=
  fold_left add_to_group (enumerate bit_lengths) ∅.

(** The inner loop of the assignment: [codes[symbol] = (code, length)];
    [code += 1]. *)
Definition assign_symbol (length : Z) (st : list (Z * (Z * Z)) * Z) (symbol : Z)
  : list (Z * (Z * Z)) * Z :=
  let '(codes, code) := st in
  (dict_set codes symbol (code, length), code + 1).

(** One length group, then [code <<= 1]. *)
Definition assign_group (groups : gmap Z (list Z))
  (st : list (Z * (Z * Z)) * Z) (length : Z) : list (Z * (Z * Z)) * Z :=
  let '(codes, code) :=
    fold_left (assign_symbol length)
      (sorted (default [] (groups !! length))) st in
  (codes, Z.shiftl code 1).

Definition _generate_canonical_huffman_codes (bit_lengths : list Z)
  : list (Z * (Z * Z)) :=
  let groups := length_groups bit_lengths in
  fst (fold_left (assign_group groups) (sorted (elements (dom groups))) ([], 0)).

(** The Kraft sum of a length vector: the sum of [2^-L[i]] over the symbols
    with [L[i] > 0]. *)
Definition kraft_sum (bit_lengths : list Z) : Q :=
  fold_right
    (fun l acc => if 0 <? l then (1 # Z.to_pos (2 ^ l)) + acc else acc)%Q
    0%Q bit_lengths.

(** [(code, length)] read as a bit string of [length] bits, most significant
    bit first (what [peek_bits(length) == code] compares against). *)
Definition code_bits (entry : Z * Z) : list bool :=
  let '(code, length) := entry in
  (fun i => Z.testbit code (length - 1 - i)) <$> seqZ 0 length.

(** No assigned pair is a prefix of another assigned pair. *)
Definition prefix_free (codes : list (Z * (Z * Z))) : Prop :=
  forall i j s1 e1 s2 e2,
    codes !! i = Some (s1, e1) -> codes !! j = Some (s2, e2) -> i <> j ->
    ~ code_bits e1 `prefix_of` code_bits e2.

(** ** Huffman decoders *)

(** The [for symbol, (code_val, code_len) in codes.items()] search of the
    decode loops: the first entry whose code equals the next [code_len] bits;
    on a match the bits are read. [skip_zero] is the
    [if code_len == 0: continue] that only the standard variant has. *)
Fixpoint match_code (skip_zero : bool) (codes : list (Z * (Z * Z)))
  (bs : BitStream.t) : option (Z * BitStream.t) :=
  match codes with
  | [] => None
  | (symbol, (code_val, code_len)) :: rest =>
      if skip_zero && (code_len =? 0) then match_code skip_zero rest bs
      else
        let '(peeked, bs1) := BitStream.peek_bits bs code_len in
        if peeked =? code_val
        then Some (symbol, snd (BitStream.read_bits bs1 code_len))
        else match_code skip_zero rest bs1
  end.

(** [while bitstream.has_bits(): ...]: [None] when the fuel runs out. *)
Fixpoint huffman_loop (fuel : nat) (skip_zero : bool)
  (codes : list (Z * (Z * Z))) (bs : BitStream.t) (out : bytes)
  : option (result bytes) :=
  match fuel with
  | O => None
  | S fuel' =>
      if BitStream.has_bits bs 1 then
        match match_code skip_zero codes bs with
        | Some (symbol, bs') =>
            match bytearray_append out symbol with
            | Ok out' => huffman_loop fuel' skip_zero codes bs' out'
            | Raise msg => Some (Raise msg)
            end
        | None => Some (Ok out)
        end
      else Some (Ok out)
  end.

(** Every iteration that continues reads at least one bit, so one more
    iteration than the stream has bits is enough fuel. *)
Definition huffman_fuel (stream : bytes) : nat := S (8 * length stream).

Definition _decompress_huffman_standard (data : bytes)
  : option (result bytes) :=
  if len data <? 4 then Some (Raise "Too short for standard Huffman")
  else
    let table_size := index data 0 in
    let table_size :=
      if table_size =? 0 then Z.min 256 (len data - 1) else table_size in
    let code_lengths := byte_val <$> slice data 1 (table_size + 1) in
    let code_lengths :=
      code_lengths ++ replicate (256 - length code_lengths) 0 in
    let huffman_codes := _generate_canonical_huffman_codes code_lengths in
    let stream := slice_from data (table_size + 1) in
    huffman_loop (huffman_fuel stream) true huffman_codes
      (BitStream.init stream) [].

Definition _decompress_huffman_canonical (data : bytes)
  : option (result bytes) :=
  if len data <? 2 then Some (Raise "Too short for canonical Huffman")
  else
    let symbol_count := index data 0 in
    let symbol_count :=
      if symbol_count =? 0 then Z.min 256 (len data - 1) else symbol_count in
    let symbol_count := if 256 <? symbol_count then 256 else symbol_count in
    let bit_lengths := byte_val <$> slice data 1 (symbol_count + 1) in
    let codes := _generate_canonical_huffman_codes bit_lengths in
    let stream := slice_from data (symbol_count + 1) in
    huffman_loop (huffman_fuel stream) false codes (BitStream.init stream) [].

(** The table of the simple variant: [for symbol in range(256)], with its
    two [break]s and its [continue]. Returns the table and [pos]. *)
Fixpoint simple_table (data : bytes) (symbols : list Z)
  (huffman_codes : list (Z * (Z * Z))) (pos : Z)
  : list (Z * (Z * Z)) * Z :=
  match symbols with
  | [] => (huffman_codes, pos)
  | symbol :: rest =>
      if len data <=? pos then (huffman_codes, pos)
      else
        let bit_length := index data pos in
        let pos := pos + 1 in
        if (bit_length =? 0) || (24 <? bit_length)
        then simple_table data rest huffman_codes pos
        else
          let byte_count := (bit_length + 7) / 8 in
          if len data <? pos + byte_count then (huffman_codes, pos)
          else
            let code :=
              fold_left
                (fun code i => Z.lor (Z.shiftl code 8) (index data (pos + i)))
                (seqZ 0 byte_count) 0 in
            simple_table data rest
              (dict_set huffman_codes symbol (code, bit_length))
              (pos + byte_count)
  end.

Definition _decompress_huffman_simple (data : bytes)
  : option (result bytes) :=
  if len data <? 512 then Some (Raise "Too short for simple Huffman")
  else
    let '(huffman_codes, pos) := simple_table data (seqZ 0 256) [] 0 in
    match huffman_codes with
    | [] => Some (Raise "No valid Huffman codes found")
    | _ =>
        let stream := slice_from data pos in
        huffman_loop (huffman_fuel stream) false huffman_codes
          (BitStream.init stream) []
    end.

(** ** Byte-level decoders *)

(** [decompress_rle]: the loop [while i < len(data) - 1] takes the pairs
    [data[i], data[i+1]] at [i = 0, 2, 4, ...] and stops when fewer than two
    bytes are left. *)
Fixpoint rle_loop (data : bytes) (out : bytes) : bytes :=
  match data with
  | count :: value :: rest =>
      let count := byte_val count in
      let count := if count =? 0 then 256 else count in
      rle_loop rest (out ++ replicate (Z.to_nat count) value)
  | _ => out
  end.

Definition decompress_rle (data : bytes) : result bytes :=
  Ok (rle_loop data []).

(** [try_rle] of [python_tools/main.py], the earlier decoder of the same
    format: it raises when a count has no value byte. *)
Fixpoint try_rle_loop (data : bytes) (out : bytes) : result bytes :=
  match data with
  | [] => Ok out
  | [_] => Raise "Invalid RLE"
  | count :: value :: rest =>
      try_rle_loop rest (out ++ replicate (Z.to_nat (byte_val count)) value)
  end.

Definition try_rle (data : bytes) : result bytes := try_rle_loop data [].

(** [decompress_lzw] *)

(** [bytes([i])] for [i] in [range(256)] *)
Definition byte_of_Z (i : Z) : byte := default x00 (Byte.of_N (Z.to_N i)).

(** [{i: bytes([i]) for i in range(dict_size)}] *)
Definition lzw_initial_dictionary : gmap Z bytes :=
  list_to_map ((fun i => (i, [byte_of_Z i])) <$> seqZ 0 256).

(** The [for k in code_stream] loop; the state is
    [(dictionary, dict_size, w, result)]. *)
Fixpoint lzw_loop (code_stream : list Z) (dictionary : gmap Z bytes)
  (dict_size : Z) (w : bytes) (out : bytes) : result bytes :=
  match code_stream with
  | [] => Ok out
  | k :: rest =>
      entry ← match dictionary !! k with
              | Some e => Ok e
              | None =>
                  if k =? dict_size then Ok (w ++ take 1 w)
                  else Raise ("Invalid LZW code: " +:+ pretty k)
              end;
      lzw_loop rest (<[dict_size := w ++ take 1 entry]> dictionary)
        (dict_size + 1) entry (out ++ entry)
  end.

Definition decompress_lzw (data : bytes) : result bytes :=
  let dict_size := 256 in
  let dictionary := lzw_initial_dictionary in
  let code_stream := byte_val <$> data in
  match code_stream with
  | [] => Ok []
  | first :: code_stream =>
      let w := [byte_of_Z first] in
      lzw_loop code_stream dictionary dict_size w w
  end.

(** [decompress_lz77] *)

(** Copy from history: [for _ in range(length)]. *)
Fixpoint lz77_copy (n : nat) (out : bytes) (start_pos : Z) : bytes :=
  match n with
  | O => out
  | S n' =>
      if start_pos <? len out
      then lz77_copy n' (out ++ [getbyte out start_pos]) (start_pos + 1)
      else out
  end.

(** One frame: [for i in range(8)] over the bits of [flag]. Returns the
    output and [pos] at the end of the [for], by exhaustion or [break]. *)
Fixpoint lz77_frame (data : bytes) (flag : Z) (bits : list Z)
  (out : bytes) (pos : Z) : bytes * Z :=
  match bits with
  | [] => (out, pos)
  | i :: rest =>
      if len data <=? pos then (out, pos)
      else if negb (Z.land (Z.shiftr flag (7 - i)) 1 =? 0) then
        if pos <? len data
        then lz77_frame data flag rest (out ++ [getbyte data pos]) (pos + 1)
        else lz77_frame data flag rest out pos
      else
        if len data <=? pos + 2 then (out, pos)
        else
          let offset :=
            Z.lor (Z.shiftl (index data pos) 8) (index data (pos + 1)) in
          let length := index data (pos + 2) in
          let pos := pos + 3 in
          if (offset =? 0) || (len out <? offset) then (out, pos)
          else
            let start_pos := len out - offset in
            lz77_frame data flag rest
              (lz77_copy (Z.to_nat length) out start_pos) pos
  end.

(** [while pos < len(data)]: every frame advances [pos] by at least the
    flag byte. *)
Fixpoint lz77_loop (fuel : nat) (data : bytes) (out : bytes) (pos : Z)
  : option bytes :=
  match fuel with
  | O => None
  | S fuel' =>
      if pos <? len data then
        let flag := index data pos in
        let pos := pos + 1 in
        let '(out, pos) := lz77_frame data flag (seqZ 0 8) out pos in
        lz77_loop fuel' data out pos
      else Some out
  end.

Definition decompress_lz77 (data : bytes) : option (result bytes) :=
  Ok <$> lz77_loop (S (length data)) data [] 0.

(** [decompress_vlq] *)

(** [value.to_bytes(4, 'little', signed=False)] *)
Definition to_bytes_4_little (value : Z) : result bytes :=
  if value <? 0 then Raise "can't convert negative int to unsigned"
  else if 2 ^ 32 <=? value then Raise "int too big to convert"
  else Ok ((fun i => byte_of_Z (Z.land (Z.shiftr value (8 * i)) 255))
             <$> seqZ 0 4).

(** The inner [while pos < len(data)]: one group. Returns [(value, pos)]. *)
Fixpoint vlq_group (fuel : nat) (data : bytes) (pos value shift : Z)
  : option (Z * Z) :=
  match fuel with
  | O => None
  | S fuel' =>
      if pos <? len data then
        let byte := index data pos in
        let pos := pos + 1 in
        let value := Z.lor value (Z.shiftl (Z.land byte 127) shift) in
        let shift := shift + 7 in
        if Z.land byte 128 =? 0 then Some (value, pos)
        else if 28 <? shift then Some (value, pos)
        else vlq_group fuel' data pos value shift
      else Some (value, pos)
  end.

(** The outer [while pos < len(data)]. *)
Fixpoint vlq_loop (fuel : nat) (data : bytes) (out : bytes) (pos : Z)
  : option (result bytes) :=
  match fuel with
  | O => None
  | S fuel' =>
      if pos <? len data then
        match vlq_group (S (length data)) data pos 0 0 with
        | None => None
        | Some (value, pos) =>
            match to_bytes_4_little value with
            | Ok bs => vlq_loop fuel' data (out ++ bs) pos
            | Raise msg => Some (Raise msg)
            end
        end
      else Some (Ok out)
  end.

Definition decompress_vlq (data : bytes) : option (result bytes) :=
  vlq_loop (S (length data)) data [] 0.

(** [decompress_dpcm]: the [for i in range(1, len(data))] loop, with
    [result] the output so far. *)
Fixpoint dpcm_loop (predictor : string) (deltas : bytes) (i : Z)
  (prev_value : Z) (out : bytes) : result bytes :=
  match deltas with
  | [] => Ok out
  | d :: rest =>
      let delta := byte_val d in
      let current :=
        if String.eqb predictor "previous" then prev_value + delta
        else if String.eqb predictor "average" then
          let avg :=
            if 2 <=? i then (index out (i - 1) + index out (i - 2)) / 2
            else index out (i - 1) in
          avg + delta
        else if String.eqb predictor "linear" then
          let linear :=
            if 2 <=? i then 2 * index out (i - 1) - index out (i - 2)
            else index out (i - 1) in
          linear + delta
        else prev_value + delta in
      let current := Z.max 0 (Z.min 255 current) in
      out' ← bytearray_append out current;
      dpcm_loop predictor rest (i + 1) current out'
  end.

Definition decompress_dpcm (predictor : string) (data : bytes)
  : result bytes :=
  match data with
  | [] => Raise "Empty data for DPCM"
  | first :: rest => dpcm_loop predictor rest 1 (byte_val first) [first]
  end.

(** ** Outcomes, validation, confidence, the probe driver *)

(** Floats are the rationals they denote, and comparisons are exact.
    Neither NaN nor an infinity arises in the fields compared below: a ratio
    is a quotient of two lengths with a positive divisor, a confidence is a
    clamped sum of constants. *)
Definition float_eq (x y : Q) : bool :=
  match (x ?= y)%Q with Eq => true | _ => false end.
Definition float_lt (x y : Q) : bool :=
  match (x ?= y)%Q with Lt => true | _ => false end.
Definition float_gt (x y : Q) : bool := float_lt y x.
Definition float_le (x y : Q) : bool := negb (float_lt y x).

Record DecompressionResult : Type := mkResult {
  method : string;
  success : bool;
  decompressed_size : Z;
  original_size : Z;
  compression_ratio : Q;
  confidence : Q;
  entropy_original : Q;
  entropy_decompressed : Q;
  checksum_valid : bool;
  validation_msg : string;
  error : option string;
  decompressed_data : option bytes
}.

Record AnalysisReport : Type := mkReport {
  file_path : string;
  file_size : Z;
  total_tests : Z;
  success_count : Z;
  failed_count : Z;
  best_method : option string;
  best_ratio : Q;
  best_confidence : Q;
  results : list DecompressionResult
}.

(** [result.confidence = ...] *)
Definition set_confidence (r : DecompressionResult) (c : Q)
  : DecompressionResult :=
  {| method := method r; success := success r;
     decompressed_size := decompressed_size r;
     original_size := original_size r;
     compression_ratio := compression_ratio r;
     confidence := c;
     entropy_original := entropy_original r;
     entropy_decompressed := entropy_decompressed r;
     checksum_valid := checksum_valid r;
     validation_msg := validation_msg r;
     error := error r;
     decompressed_data := decompressed_data r |}.

Section FloatArithmetic.

(** Rounding of an exact result (or of a decimal literal) to binary64,
    [math.log2], and [format(x, spec)]. Literals that binary64 represents
    exactly (0.0, 0.5, 1.0, 1.5, 10.0, ...) are written as they are. *)
Variable rnd : Q -> Q.
Variable flog2 : Q -> Q.
Variable fmt : string -> Q -> string.

(** [a / b] on integers, for [b <> 0] *)
Definition true_div (a b : Z) : Q := rnd (inject_Z a / inject_Z b).

(** [calculate_entropy] *)
Definition byte_frequencies (data : bytes) : list Z :=
  fold_left
    (fun frequencies byte => alter Z.succ (Z.to_nat (byte_val byte)) frequencies)
    data (replicate 256 0).

Definition calculate_entropy (data : bytes) : Q :=
  if len data =? 0 then 0%Q
  else
    fold_left
      (fun entropy freq =>
         if 0 <? freq then
           let probability := true_div freq (len data) in
           rnd (entropy - rnd (probability * flog2 probability))
         else entropy)
      (byte_frequencies data) 0%Q.

(** [data.count(b'\x00')] *)
Definition count_null (data : bytes) : Z :=
  len (filter (fun b => Byte.eqb b x00 = true) data).

(** [validate_decompressed_data] *)
Definition validate_decompressed_data (data : bytes) (original_size : Z)
  : bool * string :=
  if len data =? 0 then (false, "Empty output")
  else
    let ratio :=
      if 0 <? original_size then true_div (len data) original_size
      else 0%Q in
    if float_gt ratio 100 then
      (false, "Suspicious expansion ratio: " +:+ fmt ".1f" ratio +:+ "x")
    else if float_lt ratio (1 # 2) then
      (false, "Suspicious compression ratio: " +:+ fmt ".2f" ratio +:+ "x")
    else
      let entropy := calculate_entropy data in
      if float_lt entropy 1 then
        (false, "Entropy too low: " +:+ fmt ".2f" entropy)
      else
        let null_count := count_null data in
        let null_ratio := true_div null_count (len data) in
        if float_gt null_ratio (rnd (95 # 100)) then
          (false, "Too many null bytes: "
                    +:+ fmt ".1f" (rnd (null_ratio * 100)) +:+ "%")
        else (true, "Validation passed").

(** [calculate_confidence] *)
Definition calculate_confidence (r : DecompressionResult) : Q :=
  if negb (success r) then 0%Q
  else
    let score := 0%Q in
    let score :=
      if float_le (15 # 10) (compression_ratio r)
         && float_le (compression_ratio r) 10
      then rnd (score + rnd (3 # 10))
      else if float_le (rnd (12 # 10)) (compression_ratio r)
              && float_le (compression_ratio r) 15
      then rnd (score + rnd (15 # 100))
      else score in
    let entropy_diff := rnd (entropy_original r - entropy_decompressed r) in
    let score :=
      if float_gt entropy_diff 1 then rnd (score + rnd (3 # 10))
      else if float_gt entropy_diff (1 # 2) then rnd (score + rnd (15 # 100))
      else score in
    let score :=
      if checksum_valid r then rnd (score + rnd (2 # 10)) else score in
    let score :=
      if (1000 <=? decompressed_size r) && (decompressed_size r <=? 100000000)
      then rnd (score + rnd (2 # 10))
      else score in
    if float_lt score 1 then score else 1%Q.

(** [test_decompression]: the [try] body when the decoder returns, the
    [except] body when it raises. *)
Definition test_decompression (data : bytes) (method_name : string)
  (decompress_func : bytes -> result bytes) : DecompressionResult :=
  let original_size := len data in
  let entropy_original := calculate_entropy data in
  match decompress_func data with
  | Ok decompressed =>
      let decompressed_size := len decompressed in
      let compression_ratio :=
        if 0 <? original_size then true_div decompressed_size original_size
        else 0%Q in
      let entropy_decompressed := calculate_entropy decompressed in
      let '(checksum_valid, validation_msg) :=
        validate_decompressed_data decompressed original_size in
      let r :=
        {| method := method_name; success := true;
           decompressed_size := decompressed_size;
           original_size := original_size;
           compression_ratio := compression_ratio;
           confidence := 0;
           entropy_original := entropy_original;
           entropy_decompressed := entropy_decompressed;
           checksum_valid := checksum_valid;
           validation_msg := validation_msg;
           error := None;
           decompressed_data := Some decompressed |} in
      set_confidence r (calculate_confidence r)
  | Raise e =>
      {| method := method_name; success := false;
         decompressed_size := 0;
         original_size := original_size;
         compression_ratio := 0;
         confidence := 0;
         entropy_original := entropy_original;
         entropy_decompressed := 0;
         checksum_valid := false;
         validation_msg := "Decompression failed";
         error := Some e;
         decompressed_data := None |}
  end.

(** The key of the selection, [(r.confidence, r.compression_ratio)], under
    Python's tuple comparison [a > b]: the first components that differ
    decide. *)
Definition key_gt (a b : DecompressionResult) : bool :=
  if float_eq (confidence a) (confidence b) then
    if float_eq (compression_ratio a) (compression_ratio b) then false
    else float_gt (compression_ratio a) (compression_ratio b)
  else float_gt (confidence a) (confidence b).

(** [max(l, key=...)] on a non-empty list: the running maximum is replaced
    only by a strictly greater key. *)
Definition max_by_key (first : DecompressionResult)
  (rest : list DecompressionResult) : DecompressionResult :=
  fold_left (fun best r => if key_gt r best then r else best) rest first.

Definition qualifies (r : DecompressionResult) : bool :=
  success r && checksum_valid r.

(** [analyze_file], from the bytes read from the file on: [data] is the
    content (or the requested slice of it) and [algorithms] the registry
    [get_algorithms()]. Writing the payloads to the output directory does
    not touch the report and is left out. *)
Definition analyze_file (path : string) (data : bytes)
  (algorithms : list (string * (bytes -> result bytes))) : AnalysisReport :=
  let file_size := len data in
  let results :=
    (fun alg => test_decompression data (fst alg) (snd alg)) <$> algorithms in
  let successful_results := filter (fun r => qualifies r = true) results in
  let '(best_method, best_ratio, best_confidence) :=
    match successful_results with
    | [] => (None, 0%Q, 0%Q)
    | first :: rest =>
        let best := max_by_key first rest in
        (Some (method best), compression_ratio best, confidence best)
    end in
  {| file_path := path;
     file_size := file_size;
     total_tests := len results;
     success_count := len (filter (fun r => success r = true) results);
     failed_count := len (filter (fun r => success r = false) results);
     best_method := best_method;
     best_ratio := best_ratio;
     best_confidence := best_confidence;
     results := results |}.

End FloatArithmetic.

(** ** The order of the selection *)

(** The lexicographic order on [(confidence, compression_ratio)]. *)
Definition key_lt (a b : DecompressionResult) : Prop :=
  (confidence a < confidence b)%Q \/
  ((confidence a == confidence b)%Q /\
   (compression_ratio a < compression_ratio b)%Q).

Definition key_eq (a b : DecompressionResult) : Prop :=
  (confidence a == confidence b)%Q /\
  (compression_ratio a == compression_ratio b)%Q.

Definition key_le (a b : DecompressionResult) : Prop :=
  key_lt a b \/ key_eq a b.

(** The selection as one pass over the outcomes in registry order: the
    candidate so far is replaced by a qualifying outcome of strictly
    greater key. *)
Definition select_step (best : option DecompressionResult)
  (r : DecompressionResult) : option DecompressionResult :=
  if qualifies r then
    match best with
    | None => Some r
    | Some b => Some (if key_gt r b then r else b)
    end
  else best.

(** ** Auxiliary notions of the statements *)

(** The cursor of a reachable state: [bit_pos] is the offset inside the
    current byte, and [pos] counts the bytes loaded so far, so it is already
    one past the byte being read whenever [bit_pos] is not 0. *)
Definition cursor_ahead (s : BitStream.t) : Z :=
  if BitStream.bit_pos s =? 0 then 0 else 8.

(** The length vector of the example: one symbol of length 1 and four of
    length 3, the other 251 symbols absent. *)
Definition skipped_length_vector : list Z := [1; 3; 3; 3; 3] ++ replicate 251 0.

(** The entries the search can match all have a positive length. *)
Definition positive_lengths (skip_zero : bool) (codes : list (Z * (Z * Z)))
  : Prop :=
  Forall (fun entry => 0 < entry.2.2 \/ (skip_zero = true /\ entry.2.2 = 0))
    codes.

(** [best] is the selected outcome of the list [l]: a qualifying outcome
    at some position [i], at least as great as every qualifying outcome
    and strictly greater than those before position [i]. *)
Definition is_best (l : list DecompressionResult) (i : nat)
  (best : DecompressionResult) : Prop :=
  l !! i = Some best /\ qualifies best = true /\
  forall j r, l !! j = Some r -> qualifies r = true ->
    key_le r best /\ ((j < i)%nat -> key_lt r best).

(** ** Further decoders *)

(** [decompress_delta]: [acc = (acc + b) & 0xFF; out.append(acc)]. *)
Fixpoint delta_loop (data : bytes) (acc : Z) (out : bytes) : result bytes :=
  match data with
  | [] => Ok out
  | b :: rest =>
      let acc := Z.land (acc + byte_val b) 255 in
      out' ← bytearray_append out acc;
      delta_loop rest acc out'
  end.

Definition decompress_delta (data : bytes) : result bytes :=
  delta_loop data 0 [].

(** [decompress_delta_signed]: a 16-bit accumulator, emitted low byte
    first. *)
Fixpoint delta_signed_loop (data : bytes) (acc : Z) (out : bytes)
  : result bytes :=
  match data with
  | [] => Ok out
  | b :: rest =>
      let b := byte_val b in
      let delta := if b <? 128 then b else b - 256 in
      let acc := Z.land (acc + delta) 65535 in
      out1 ← bytearray_append out (Z.land acc 255);
      out2 ← bytearray_append out1 (Z.land (Z.shiftr acc 8) 255);
      delta_signed_loop rest acc out2
  end.

Definition decompress_delta_signed (data : bytes) : result bytes :=
  delta_signed_loop data 0 [].

(** [decompress_nibble_signed]: one nibble of the loop body (the body
    does the same for the high and for the low nibble): decode the delta,
    add, clamp to the signed 16-bit range, emit as two bytes. *)
Definition nibble_step (nibble : Z) (current_value : Z) (out : bytes)
  : result (Z * bytes) :=
  let delta := if nibble <=? 7 then nibble else nibble - 16 in
  let current_value := current_value + delta in
  let current_value :=
    if 32767 <? current_value then 32767
    else if current_value <? -32768 then -32768
    else current_value in
  let unsigned_val :=
    if 0 <=? current_value then current_value else current_value + 65536 in
  out1 ← bytearray_append out (Z.land unsigned_val 255);
  out2 ← bytearray_append out1 (Z.land (Z.shiftr unsigned_val 8) 255);
  Ok (current_value, out2).

Fixpoint nibble_signed_loop (data : bytes) (current_value : Z) (out : bytes)
  : result bytes :=
  match data with
  | [] => Ok out
  | b :: rest =>
      let byte_val := byte_val b in
      let high_nibble := Z.land (Z.shiftr byte_val 4) 15 in
      '(current_value, out) ← nibble_step high_nibble current_value out;
      let low_nibble := Z.land byte_val 15 in
      '(current_value, out) ← nibble_step low_nibble current_value out;
      nibble_signed_loop rest current_value out
  end.

Definition decompress_nibble_signed (data : bytes) : result bytes :=
  nibble_signed_loop data 0 [].

(** [decompress_huffman]: the three formats in turn; a format that raises
    or returns nothing is passed over. *)
Fixpoint huffman_try_formats (formats : list (bytes -> option (result bytes)))
  (data : bytes) : option (result bytes) :=
  match formats with
  | [] => Some (Raise "No valid Huffman format found")
  | decompress_func :: rest =>
      match decompress_func data with
      | None => None
      | Some (Ok out) =>
          if 0 <? len out then Some (Ok out)
          else huffman_try_formats rest data
      | Some (Raise _) => huffman_try_formats rest data
      end
  end.

Definition decompress_huffman (data : bytes) : option (result bytes) :=
  if len data <? 16 then Some (Raise "Data too short for Huffman compression")
  else
    huffman_try_formats
      [_decompress_huffman_canonical; _decompress_huffman_standard;
       _decompress_huffman_simple] data.

(** ** Rice decoder *)

(** [x.bit_length()] *)
Definition bit_length (x : Z) : Z :=
  if x =? 0 then 0 else Z.log2 (Z.abs x) + 1.

(** [while bitstream.read_bit() == 1]: the unary part, capped at 256. *)
Fixpoint rice_unary (fuel : nat) (bs : BitStream.t) (unary_count : Z)
  : option (Z * BitStream.t) :=
  match fuel with
  | O => None
  | S fuel' =>
      let '(bit, bs') := BitStream.read_bit bs in
      if bit =? 1 then
        let unary_count := unary_count + 1 in
        if 255 <? unary_count then Some (unary_count, bs')
        else rice_unary fuel' bs' unary_count
      else Some (unary_count, bs')
  end.

(** [while bitstream.has_bits()]: one value per iteration, two bytes
    each. *)
Fixpoint rice_loop (fuel : nat) (m : Z) (bs : BitStream.t) (out : bytes)
  : option (result bytes) :=
  match fuel with
  | O => None
  | S fuel' =>
      if BitStream.has_bits bs 1 then
        match rice_unary 257 bs 0 with
        | None => None
        | Some (unary_count, bs) =>
            let k := bit_length (m - 1) in
            let '(binary_part, bs) :=
              if 0 <? k then
                if BitStream.has_bits bs k then BitStream.read_bits bs k
                else (0, bs)
              else (0, bs) in
            let value := unary_count * m + binary_part in
            match bytearray_append out (Z.land value 255) with
            | Ok out1 =>
                match bytearray_append out1 (Z.land (Z.shiftr value 8) 255)
                with
                | Ok out2 => rice_loop fuel' m bs out2
                | Raise msg => Some (Raise msg)
                end
            | Raise msg => Some (Raise msg)
            end
        end
      else Some (Ok out)
  end.

(** [decompress_rice(data, m)]; the registry uses the default [m = 4]. *)
Definition decompress_rice (m : Z) (data : bytes) : option (result bytes) :=
  rice_loop (S (8 * length data)) m (BitStream.init data) [].

(** ** ECG leads *)

(** [bytearray.extend(values)] *)
Fixpoint bytearray_extend (out : bytes) (values : list Z) : result bytes :=
  match values with
  | [] => Ok out
  | v :: rest => out' ← bytearray_append out v; bytearray_extend out' rest
  end.

(** The 16-bit sample at [offset]: [data[offset] | (data[offset + 1] << 8)],
    read as signed. *)
Definition ecg_sample (data : bytes) (offset : Z) : Z :=
  let sample := Z.lor (index data offset) (Z.shiftl (index data (offset + 1)) 8) in
  if 32768 <=? sample then sample - 65536 else sample.

(** The loop [for j in range(num_samples)] that fills one lead: the
    samples at the offsets that leave room for two bytes. *)
Definition ecg_extract (data : bytes) (offset_of : Z -> Z) (num_samples : Z)
  : list Z :=
  ecg_sample data <$>
    filter (fun offset => offset + 1 < len data)
      (offset_of <$> seqZ 0 num_samples).

(** The samples of one lead, clamped and emitted low byte first. *)
Fixpoint serialize_lead (out : bytes) (samples : list Z) : result bytes :=
  match samples with
  | [] => Ok out
  | sample :: rest =>
      let sample := Z.max (-32768) (Z.min 32767 sample) in
      out' ← bytearray_extend out
               [Z.land sample 255; Z.land (Z.shiftr sample 8) 255];
      serialize_lead out' rest
  end.

Definition ecg_lead_order : list string :=
  ["I"; "II"; "III"; "aVR"; "aVL"; "aVF"; "V1"; "V2"; "V3"; "V4"; "V5"; "V6"].

(** [_serialize_ecg_samples]: the leads that are present, in the standard
    order. *)
Fixpoint serialize_leads (leads : gmap string (list Z)) (order : list string)
  (out : bytes) : result bytes :=
  match order with
  | [] => Ok out
  | lead_name :: rest =>
      match leads !! lead_name with
      | Some samples =>
          out' ← serialize_lead out samples; serialize_leads leads rest out'
      | None => serialize_leads leads rest out
      end
  end.

Definition _serialize_ecg_samples (leads : gmap string (list Z))
  : result bytes :=
  serialize_leads leads ecg_lead_order [].

(** The lead-by-lead layout shared by the packed formats: lead [i] holds
    the samples at [(i * 2 * num_samples) + (j * 2)]. *)
Definition ecg_packed_leads (data : bytes) (num_samples : Z)
  (lead_names : list string) : gmap string (list Z) :=
  fold_left
    (fun leads '(i, lead_name) =>
       <[lead_name :=
           ecg_extract data (fun j => (i * 2 * num_samples) + (j * 2))
             num_samples]> leads)
    (enumerate lead_names) ∅.

(** [_try_ecg_reconstruction] *)
Definition _try_ecg_reconstruction (data : bytes) : result bytes :=
  let num_samples := len data / 24 in
  if num_samples =? 0 then Raise "No complete ECG samples found"
  else
    let lead_names := ecg_lead_order in
    _serialize_ecg_samples (ecg_packed_leads data num_samples lead_names).

(** [l[i]] for [0 <= i]: out of range is an [IndexError]. *)
Definition list_get (l : list Z) (i : Z) : result Z :=
  match l !! Z.to_nat i with
  | Some x => Ok x
  | None => Raise "list index out of range"
  end.

(** [result.get(name, [0] * num_samples)] *)
Definition lead_or_zeros (leads : gmap string (list Z)) (name : string)
  (num_samples : Z) : list Z :=
  default (replicate (Z.to_nat num_samples) 0) (leads !! name).

(** [_reconstruct_12_ecg_leads]: the list comprehensions are [mapM]s over
    [range(num_samples)], since indexing a lead may raise. *)
Definition _reconstruct_12_ecg_leads (three_leads : gmap string (list Z))
  : result (gmap string (list Z)) :=
  let res :=
    fold_left
      (fun res lead =>
         match three_leads !! lead with
         | Some samples => <[lead := samples]> res
         | None => res
         end)
      ["I"; "II"; "III"] ∅ in
  let num_samples := len (default [] (res !! "I")) in
  let num_samples :=
    if num_samples =? 0 then len (default [] (res !! "II"))
    else num_samples in
  let num_samples :=
    if num_samples =? 0 then len (default [] (res !! "III"))
    else num_samples in
  if 0 <? num_samples then
    let lead_I := lead_or_zeros res "I" num_samples in
    let lead_II := lead_or_zeros res "II" num_samples in
    let range := seqZ 0 num_samples in
    aVR ← mapM (fun i => a ← list_get lead_I i; b ← list_get lead_II i;
                         Ok (- (a + b) / 2)) range;
    aVL ← mapM (fun i => a ← list_get lead_I i; b ← list_get lead_II i;
                         Ok (a - b / 2)) range;
    aVF ← mapM (fun i => b ← list_get lead_II i; a ← list_get lead_I i;
                         Ok (b - a / 2)) range;
    base_signal ← mapM (fun i => b ← list_get lead_II i; Ok (b / 4)) range;
    v1 ← mapM (fun i => s ← list_get base_signal i; Ok (s - (i mod 10) * 5))
           range;
    v2 ← mapM (fun i => s ← list_get base_signal i; Ok (s - (i mod 8) * 3))
           range;
    v3 ← mapM (fun i => s ← list_get base_signal i; Ok (s - (i mod 6) * 2))
           range;
    v4 ← mapM (fun i => s ← list_get base_signal i; Ok (s - (i mod 4) * 1))
           range;
    v5 ← mapM (fun i => s ← list_get base_signal i; Ok (s + (i mod 4) * 1))
           range;
    v6 ← mapM (fun i => s ← list_get base_signal i; Ok (s + (i mod 6) * 2))
           range;
    Ok (<["V6" := v6]> (<["V5" := v5]> (<["V4" := v4]> (<["V3" := v3]>
        (<["V2" := v2]> (<["V1" := v1]> (<["aVF" := aVF]> (<["aVL" := aVL]>
        (<["aVR" := aVR]> res)))))))))
  else Ok res.

(** [_decompress_ecg_leads_3lead] *)
Definition _decompress_ecg_leads_3lead (data : bytes) : result bytes :=
  if len data <? 6 then Raise "Insufficient data for 3-lead ECG"
  else
    let num_samples := len data / 6 in
    let leads := ecg_packed_leads data num_samples ["I"; "II"; "III"] in
    reconstructed ← _reconstruct_12_ecg_leads leads;
    _serialize_ecg_samples reconstructed.

(** ** Further notions of the statements *)

(** The successive differences of a byte sequence modulo 256, the first one
    taken from 0: the input that [decompress_delta] turns back into the
    sequence. *)
Fixpoint differences (prev : Z) (s : bytes) : bytes :=
  match s with
  | [] => []
  | x :: rest =>
      byte_of_Z ((byte_val x - prev) mod 256) :: differences (byte_val x) rest
  end.

(** [L[s]] for a symbol [s] of a length vector. *)
Definition length_of (bit_lengths : list Z) (symbol : Z) : option Z :=
  if 0 <=? symbol then bit_lengths !! Z.to_nat symbol else None.


(** * Properties *)

Lemma byte_val_range b : 0 <= byte_val b < 256.
Proof.
  unfold byte_val. pose proof (Byte.to_N_bounded b). lia.
Qed.

Lemma len_nonneg {A} (l : list A) : 0 <= len l.
Proof. unfold len. lia. Qed.

(** ** Bit-stream reader *)

Section BitStreamFacts.
Import BitStream.

Lemma read_bit_data s : data (snd (read_bit s)) = data s.
Proof.
  unfold read_bit.
  destruct (negb (has_bits s 1)); [reflexivity|].
  destruct (bit_pos s =? 0); reflexivity.
Qed.

Lemma read_bits_loop_data n : forall acc s,
  data (snd (read_bits_loop n acc s)) = data s.
Proof.
  induction n as [|n IH]; intros acc s; simpl; [reflexivity|].
  destruct (read_bit s) as [b s'] eqn:E.
  rewrite IH. change s' with (snd (b, s')). rewrite <- E.
  apply read_bit_data.
Qed.

Lemma read_bits_data s count : data (snd (read_bits s count)) = data s.
Proof. apply read_bits_loop_data. Qed.

(** [peek_bits] hands back the state it was called in. *)
Lemma peek_bits_state s count : snd (peek_bits s count) = s.
Proof.
  unfold peek_bits.
  pose proof (read_bits_data s count) as Hd.
  destruct (read_bits s count) as [v s']; simpl in *.
  destruct s; simpl in *; congruence.
Qed.

Lemma peek_bits_value s count :
  fst (peek_bits s count) = fst (read_bits s count).
Proof.
  unfold peek_bits. destruct (read_bits s count); reflexivity.
Qed.

Lemma reachable_inv blob c s :
  reachable blob c s ->
  data s = blob /\ 0 <= bit_pos s < 8 /\ 0 <= c <= 8 * len blob /\
  pos s * 8 + bit_pos s = c + cursor_ahead s.
Proof.
  induction 1 as [|c s Hr (Hd & Hb & Hc & Hp)].
  - unfold cursor_ahead; simpl. pose proof (len_nonneg blob).
    split; [reflexivity|lia].
  - unfold takes_bit, read_bit, cursor_ahead in *.
    unfold has_bits. rewrite Hd.
    destruct (Z.leb_spec (pos s * 8 + bit_pos s + 1) (len blob * 8));
      simpl.
    + destruct (Z.eqb_spec (bit_pos s) 0) as [E0|E0]; simpl.
      * rewrite E0. change ((0 + 1) mod 8) with 1. simpl.
        repeat split; try lia; assumption.
      * assert (Hm : (bit_pos s + 1) mod 8
                     = if bit_pos s =? 7 then 0 else bit_pos s + 1).
        { destruct (Z.eqb_spec (bit_pos s) 7) as [E7|E7].
          - rewrite E7. reflexivity.
          - apply Z.mod_small. lia. }
        rewrite Hm.
        destruct (Z.eqb_spec (bit_pos s) 7) as [E7|E7]; simpl.
        -- repeat split; try lia; assumption.
        -- destruct (Z.eqb_spec (bit_pos s + 1) 0); [lia|].
           repeat split; try lia; assumption.
    + destruct (Z.eqb_spec (bit_pos s) 0); repeat split; try lia; assumption.
Qed.

(** What [has_bits] decides on a reachable state: the bits consumed so
    far, plus a whole extra byte whenever the cursor is inside a byte. *)
Lemma has_bits_reachable blob c s n :
  reachable blob c s ->
  has_bits s n = true <-> c + cursor_ahead s + n <= 8 * len blob.
Proof.
  intros Hr. destruct (reachable_inv _ _ _ Hr) as (Hd & _ & _ & Hp).
  unfold has_bits. rewrite Hd, Hp, Z.leb_le. lia.
Qed.

(** Of the last byte only the first bit is ever consumed: on a non-empty
    blob the bits consumed never exceed [8 * len blob - 7]. *)
Lemma consumed_bound blob c s :
  reachable blob c s -> blob <> [] -> c <= 8 * len blob - 7.
Proof.
  intros Hr Hne.
  assert (Hlen : 1 <= len blob).
  { destruct blob; [done|]. unfold len. simpl. lia. }
  induction Hr as [|c s Hr IH]; [lia|].
  destruct (reachable_inv _ _ _ Hr) as (Hd & Hb & Hc & Hp).
  unfold takes_bit. destruct (has_bits s 1) eqn:Hh; [|lia].
  apply (has_bits_reachable _ _ _ 1 Hr) in Hh.
  unfold cursor_ahead in *.
  destruct (Z.eqb_spec (bit_pos s) 0); lia.
Qed.

(** A call of [read_bit] that loads a byte indexes inside the blob. *)
Lemma read_bit_index_in_range blob c s :
  reachable blob c s -> has_bits s 1 = true -> bit_pos s = 0 ->
  0 <= pos s < len blob.
Proof.
  intros Hr Hh Hb.
  destruct (reachable_inv _ _ _ Hr) as (Hd & _ & Hc & Hp).
  unfold has_bits in Hh. rewrite Hd, Z.leb_le in Hh.
  unfold cursor_ahead in Hp. rewrite Hb in Hp. simpl in Hp. lia.
Qed.

(** A [read_bits] call stays inside the reachable states. *)
Lemma read_bits_loop_reachable blob n : forall acc c s,
  reachable blob c s ->
  exists c', reachable blob c' (snd (read_bits_loop n acc s)) /\
             c <= c' <= c + Z.of_nat n.
Proof.
  induction n as [|n IH]; intros acc c s Hr; simpl.
  - exists c. split; [assumption|lia].
  - pose proof (reach_read_bit _ _ _ Hr) as Hr'.
    destruct (read_bit s) as [b s'] eqn:E. simpl in Hr'.
    destruct (IH (Z.lor (Z.shiftl acc 1) b) _ _ Hr') as (c' & Hc' & Hle).
    exists c'. split; [assumption|].
    unfold takes_bit in Hle. destruct (has_bits s 1); lia.
Qed.

Lemma read_bits_reachable blob c s count :
  reachable blob c s ->
  exists c', reachable blob c' (snd (read_bits s count)) /\ c <= c'.
Proof.
  intros Hr. unfold read_bits.
  destruct (read_bits_loop_reachable blob (Z.to_nat count) 0 c s Hr)
    as (c' & Hc' & Hle).
  exists c'. split; [exact Hc'|lia].
Qed.

Lemma peek_bits_reachable blob c s count :
  reachable blob c s -> reachable blob c (snd (peek_bits s count)).
Proof. intros Hr. by rewrite peek_bits_state. Qed.

End BitStreamFacts.

(** C2. On the one-byte blob [0xFF], after one [read_bit] (which returned
    the first bit, so one bit is consumed), [has_bits(1)] is false although
    [1 + 1 <= 8]; the next [read_bit] returns the filler 0 where the blob
    has a 1, and leaves the state as it is: the remaining seven bits of the
    byte are never read. *)
Theorem has_bits_false_inside_last_byte :
  let s0 := BitStream.init [xff] in
  let s1 := snd (BitStream.read_bit s0) in
  BitStream.reachable [xff] 1 s1 /\
  fst (BitStream.read_bit s0) = 1 /\
  BitStream.has_bits s1 1 = false /\
  1 + 1 <= 8 * len [xff] /\
  BitStream.read_bit s1 = (0, s1) /\
  Z.testbit (index [xff] 0) 6 = true.
Proof.
  cbv zeta. split.
  - exact (BitStream.reach_read_bit [xff] 0 _ (BitStream.reach_init [xff])).
  - vm_compute. repeat split; congruence.
Qed.

(** C7. In every reachable state, [peek_bits(n)] leaves the state (byte
    position, bit position, buffered byte) as it was, and [read_bits(n)]
    called after it returns the value that [peek_bits(n)] returned. *)
Theorem peek_then_read blob c s n :
  BitStream.reachable blob c s ->
  snd (BitStream.peek_bits s n) = s /\
  fst (BitStream.read_bits (snd (BitStream.peek_bits s n)) n)
  = fst (BitStream.peek_bits s n).
Proof.
  intros _. rewrite peek_bits_state, peek_bits_value. split; reflexivity.
Qed.

Lemma peek_then_read_witness :
  let s := snd (BitStream.read_bit (BitStream.init [xa5; x3c])) in
  snd (BitStream.peek_bits s 11) = s /\
  fst (BitStream.read_bits (snd (BitStream.peek_bits s 11)) 11)
  = fst (BitStream.peek_bits s 11).
Proof.
  exact (peek_then_read [xa5; x3c] _ _ 11
           (BitStream.reach_read_bit _ _ _ (BitStream.reach_init _))).
Defined.

(** ** Canonical Huffman code generator *)

(** C1. The length vector [1,3,3,3,3,0,...,0] has 256 entries and Kraft sum
    [1/2 + 4/8 = 1], and the table generated for it is not prefix-free:
    symbol 0 gets the code [0] and symbol 1 the code [010], because the
    running code is shifted by one bit between the groups of length 1 and
    3. *)
Theorem canonical_codes_not_prefix_free :
  len skipped_length_vector = 256 /\
  (kraft_sum skipped_length_vector == 1)%Q /\
  _generate_canonical_huffman_codes skipped_length_vector
  = [(0, (0, 1)); (1, (2, 3)); (2, (3, 3)); (3, (4, 3)); (4, (5, 3))] /\
  code_bits (0, 1) = [false] /\
  code_bits (2, 3) = [false; true; false] /\
  ~ prefix_free (_generate_canonical_huffman_codes skipped_length_vector).
Proof.
  assert (Hgen : _generate_canonical_huffman_codes skipped_length_vector
    = [(0, (0, 1)); (1, (2, 3)); (2, (3, 3)); (3, (4, 3)); (4, (5, 3))])
    by (vm_compute; reflexivity).
  split; [reflexivity|]. split; [reflexivity|]. split; [exact Hgen|].
  split; [reflexivity|]. split; [reflexivity|].
  rewrite Hgen. intros Hpf.
  apply (Hpf 0%nat 1%nat 0 (0, 1) 1 (2, 3));
    [reflexivity | reflexivity | discriminate |].
  exists [true; false]. reflexivity.
Qed.

(** ** Run-length decoder *)

Lemma rle_loop_trailing_byte : forall data out b,
  Nat.Even (length data) -> rle_loop (data ++ [b]) out = rle_loop data out.
Proof.
  intros data. induction data as [data IH] using (induction_ltof1 _ (@length _)).
  unfold ltof in IH. intros out b Hev.
  destruct data as [|c [|v rest]]; simpl in *.
  - reflexivity.
  - destruct Hev as [k Hk]. lia.
  - apply IH; [lia|]. destruct Hev as [k Hk]. exists (k - 1)%nat. lia.
Qed.

(** On odd-length input [decompress_rle] returns, with the decoding of the
    input without its last byte. *)
Lemma decompress_rle_odd data b :
  Nat.Even (length data) ->
  decompress_rle (data ++ [b]) = decompress_rle data.
Proof.
  intros Hev. unfold decompress_rle. f_equal.
  by apply rle_loop_trailing_byte.
Qed.

(** The earlier decoder [try_rle] raises on every odd-length input. *)
Lemma try_rle_loop_odd : forall data out,
  Nat.Odd (length data) -> try_rle_loop data out = Raise "Invalid RLE".
Proof.
  intros data. induction data as [data IH] using (induction_ltof1 _ (@length _)).
  unfold ltof in IH. intros out Hodd.
  destruct data as [|c [|v rest]]; simpl in *.
  - destruct Hodd as [k Hk]. lia.
  - reflexivity.
  - apply IH; [lia|]. destruct Hodd as [k Hk]. exists (k - 1)%nat. lia.
Qed.

(** C4. On the three-byte input [03 41 02], [decompress_rle] does not fail:
    it returns ["AAA"] and ignores the last byte. [try_rle], the decoder of
    the same format in [main.py], raises on that input. *)
Theorem decompress_rle_odd_input_returns :
  Nat.Odd (length [x03; x41; x02]) /\
  decompress_rle [x03; x41; x02] = Ok [x41; x41; x41] /\
  try_rle [x03; x41; x02] = Raise "Invalid RLE".
Proof.
  split; [exists 1%nat; reflexivity|]. split; reflexivity.
Qed.

(** ** LZ77 *)

(** C8. The 13-byte input [FF 'A'..'H' 00 00 04 04] decodes to the 12
    bytes ["ABCDEFGHEFGH"]. *)
Theorem decompress_lz77_scenario :
  decompress_lz77
    [xff; x41; x42; x43; x44; x45; x46; x47; x48; x00; x00; x04; x04]
  = Some (Ok [x41; x42; x43; x44; x45; x46; x47; x48; x45; x46; x47; x48]).
Proof. vm_compute. reflexivity. Qed.

(** ** VLQ *)

(** C9. On the five bytes [FF FF FF FF 7F] the group loop folds all five
    bytes into the value (the fifth at shift 28, since the check
    [shift > 28] first holds at shift 35), the value [2^35 - 1] exceeds
    [2^32 - 1], and the conversion to four bytes raises: the decode
    fails. *)
Theorem decompress_vlq_overflow :
  vlq_group 6 [xff; xff; xff; xff; x7f] 0 0 0 = Some (2 ^ 35 - 1, 5) /\
  2 ^ 32 - 1 < 2 ^ 35 - 1 /\
  to_bytes_4_little (2 ^ 35 - 1) = Raise "int too big to convert" /\
  decompress_vlq [xff; xff; xff; xff; x7f]
  = Some (Raise "int too big to convert").
Proof. repeat split; vm_compute; reflexivity. Qed.

(** ** LZW *)

(** C10. The empty blob decodes to the empty byte sequence, without an
    error. *)
Theorem decompress_lzw_empty : decompress_lzw [] = Ok [].
Proof. reflexivity. Qed.

(** ** Huffman decoders *)

(** The decode loop can only raise through [result.append]. *)
Lemma huffman_loop_raise fuel : forall skip_zero codes bs out msg,
  huffman_loop fuel skip_zero codes bs out = Some (Raise msg) ->
  msg = "byte must be in range(0, 256)"%string.
Proof.
  induction fuel as [|fuel IH]; intros skip_zero codes bs out msg; simpl.
  - discriminate.
  - destruct (BitStream.has_bits bs 1); [|discriminate].
    destruct (match_code skip_zero codes bs) as [[symbol bs']|];
      [|discriminate].
    unfold bytearray_append.
    destruct ((0 <=? symbol) && (symbol <? 256)).
    + destruct (Byte.of_N (Z.to_N symbol)).
      * apply IH.
      * intros [= <-]. reflexivity.
    + intros [= <-]. reflexivity.
Qed.

(** C5, with the thresholds of the code. Each variant fails with its
    "too short" error exactly when the input is shorter than the length
    its first check asks for: 4 bytes for the standard variant, 2 for the
    canonical one, 512 for the simple one. *)
Theorem huffman_too_short_thresholds (data : bytes) :
  (_decompress_huffman_standard data
     = Some (Raise "Too short for standard Huffman") <-> len data < 4) /\
  (_decompress_huffman_canonical data
     = Some (Raise "Too short for canonical Huffman") <-> len data < 2) /\
  (_decompress_huffman_simple data
     = Some (Raise "Too short for simple Huffman") <-> len data < 512).
Proof.
  unfold _decompress_huffman_standard, _decompress_huffman_canonical,
    _decompress_huffman_simple.
  repeat split;
    match goal with
    | |- _ -> len data < ?n =>
        destruct (Z.ltb_spec (len data) n) as [Hlt|Hge]; [intros _; exact Hlt|]
    | |- len data < ?n -> _ =>
        intros Hlt; apply Z.ltb_lt in Hlt; rewrite Hlt; reflexivity
    end.
  - intros H. apply huffman_loop_raise in H. discriminate.
  - intros H. apply huffman_loop_raise in H. discriminate.
  - destruct (simple_table data (seqZ 0 256) [] 0) as [[|entry codes] pos].
    + discriminate.
    + intros H. apply huffman_loop_raise in H. discriminate.
Qed.

(** The 16-byte threshold does not hold for the standard variant: this
    4-byte input is shorter than 16 bytes and is decoded, to nine zero
    bytes, so the equivalence with [len data < 16] fails on it. *)
Lemma huffman_standard_accepts_4_bytes :
  len [x01; x01; x00; x00] < 16 /\
  _decompress_huffman_standard [x01; x01; x00; x00]
  = Some (Ok [x00; x00; x00; x00; x00; x00; x00; x00; x00]) /\
  ~ (_decompress_huffman_standard [x01; x01; x00; x00]
       = Some (Raise "Too short for standard Huffman")
     <-> len [x01; x01; x00; x00] < 16).
Proof.
  assert (H : _decompress_huffman_standard [x01; x01; x00; x00]
    = Some (Ok [x00; x00; x00; x00; x00; x00; x00; x00; x00]))
    by (vm_compute; reflexivity).
  split; [reflexivity|]. split; [exact H|].
  rewrite H. intros [_ Hc]. discriminate Hc. reflexivity.
Qed.

(** ** Probe driver *)

Section DriverFacts.
Variable rnd : Q -> Q.
Variable flog2 : Q -> Q.
Variable fmt : string -> Q -> string.

Lemma calculate_confidence_failed r :
  success r = false -> calculate_confidence rnd r = 0%Q.
Proof. intros H. unfold calculate_confidence. rewrite H. reflexivity. Qed.

Lemma test_decompression_success data name f :
  success (test_decompression rnd flog2 fmt data name f)
  = match f data with Ok _ => true | Raise _ => false end.
Proof.
  unfold test_decompression. destruct (f data); [|reflexivity].
  destruct (validate_decompressed_data _ _ _ _ _); reflexivity.
Qed.

End DriverFacts.

(** C6. Every outcome of the probe driver with [success = false] has
    [decompressed_size = 0], [confidence = 0] and [checksum_valid = false]. *)
Theorem failed_outcome_fields rnd flog2 fmt data name f :
  success (test_decompression rnd flog2 fmt data name f) = false ->
  decompressed_size (test_decompression rnd flog2 fmt data name f) = 0 /\
  confidence (test_decompression rnd flog2 fmt data name f) = 0%Q /\
  checksum_valid (test_decompression rnd flog2 fmt data name f) = false.
Proof.
  unfold test_decompression. destruct (f data) as [out|msg].
  - destruct (validate_decompressed_data _ _ _ _ _). discriminate.
  - intros _. repeat split; reflexivity.
Qed.

Lemma failed_outcome_fields_witness :
  let r := test_decompression (fun q => q) (fun _ => 0%Q) (fun spec _ => spec)
             [] "dpcm" (decompress_dpcm "previous") in
  success r = false /\
  decompressed_size r = 0 /\ confidence r = 0%Q /\ checksum_valid r = false.
Proof.
  split; [reflexivity|].
  apply (failed_outcome_fields (fun q => q) (fun _ => 0%Q) (fun spec _ => spec)
           [] "dpcm" (decompress_dpcm "previous")).
  reflexivity.
Defined.

(** ** Best-candidate selection *)

Lemma float_eq_spec x y : float_eq x y = true <-> (x == y)%Q.
Proof.
  unfold float_eq. rewrite Qeq_alt. destruct (x ?= y)%Q; split; congruence.
Qed.

Lemma float_lt_spec x y : float_lt x y = true <-> (x < y)%Q.
Proof.
  unfold float_lt. rewrite Qlt_alt. destruct (x ?= y)%Q; split; congruence.
Qed.

(** Python's [key(a) > key(b)] is the strict lexicographic order. *)
Lemma key_gt_spec a b : key_gt a b = true <-> key_lt b a.
Proof.
  unfold key_gt, key_lt, float_gt.
  destruct (float_eq (confidence a) (confidence b)) eqn:Ec.
  - apply float_eq_spec in Ec.
    destruct (float_eq (compression_ratio a) (compression_ratio b)) eqn:Er.
    + apply float_eq_spec in Er. split; [discriminate|].
      intros [H|[_ H]]; rewrite ?Ec, ?Er in H;
        exfalso; exact (Qlt_irrefl _ H).
    + rewrite float_lt_spec. split.
      * intros H. right. split; [symmetry; exact Ec|exact H].
      * intros [H|[_ H]]; [|exact H].
        rewrite Ec in H. exfalso; exact (Qlt_irrefl _ H).
  - rewrite float_lt_spec. split.
    + intros H. left. exact H.
    + intros [H|[H _]]; [exact H|].
      assert (float_eq (confidence a) (confidence b) = true)
        by (apply float_eq_spec; symmetry; exact H).
      congruence.
Qed.

Lemma key_le_refl a : key_le a a.
Proof. right. split; reflexivity. Qed.

Lemma key_le_lt_trans a b c : key_le a b -> key_lt b c -> key_lt a c.
Proof.
  unfold key_le, key_lt, key_eq.
  intros [[H1|[H1 H1']]|[H1 H1']] [H2|[H2 H2']].
  - left. eapply Qlt_trans; eassumption.
  - left. rewrite <- H2. exact H1.
  - left. rewrite H1. exact H2.
  - right. split; [rewrite H1; exact H2|eapply Qlt_trans; eassumption].
  - left. rewrite H1. exact H2.
  - right. split; [rewrite H1; exact H2|rewrite H1'; exact H2'].
Qed.

(** The order is total: what is not strictly above is below or equal. *)
Lemma key_not_gt_le a b : key_gt a b = false -> key_le a b.
Proof.
  intros Hn. unfold key_le, key_lt, key_eq.
  destruct (Q_dec (confidence a) (confidence b)) as [[Hlt|Hgt]|Heq].
  - left. left. exact Hlt.
  - exfalso. assert (key_gt a b = true); [|congruence].
    apply key_gt_spec. left. exact Hgt.
  - destruct (Q_dec (compression_ratio a) (compression_ratio b))
      as [[Hlt|Hgt]|Heq'].
    + left. right. split; assumption.
    + exfalso. assert (key_gt a b = true); [|congruence].
      apply key_gt_spec. right. split; [symmetry|]; assumption.
    + right. split; assumption.
Qed.

(** [max] over the filtered list is the one-pass selection. *)
Lemma select_step_some l : forall b,
  fold_left select_step l (Some b)
  = Some (max_by_key b (filter (fun r => qualifies r = true) l)).
Proof.
  induction l as [|r l IH]; intros b; simpl; [reflexivity|].
  unfold select_step at 2. rewrite filter_cons.
  destruct (decide (qualifies r = true)) as [Hq|Hq].
  - rewrite Hq. simpl. apply IH.
  - apply not_true_is_false in Hq. rewrite Hq. apply IH.
Qed.

Lemma select_step_filter l :
  fold_left select_step l None
  = match filter (fun r => qualifies r = true) l with
    | [] => None
    | first :: rest => Some (max_by_key first rest)
    end.
Proof.
  induction l as [|r l IH]; simpl; [reflexivity|].
  unfold select_step at 2. rewrite filter_cons.
  destruct (decide (qualifies r = true)) as [Hq|Hq].
  - rewrite Hq. apply select_step_some.
  - apply not_true_is_false in Hq. rewrite Hq. exact IH.
Qed.

Lemma select_step_spec l :
  match fold_left select_step l None with
  | None => forall r, r ∈ l -> qualifies r = false
  | Some best => exists i, is_best l i best
  end.
Proof.
  induction l as [|x l IH] using rev_ind; simpl.
  - intros r Hr. inversion Hr.
  - rewrite fold_left_app. simpl.
    destruct (fold_left select_step l None) as [b|]; unfold select_step.
    + destruct IH as (i & Hi & Hqb & Hmax).
      pose proof (lookup_lt_Some _ _ _ Hi) as Hlen.
      destruct (qualifies x) eqn:Hqx.
      * destruct (key_gt x b) eqn:Hgt.
        -- apply key_gt_spec in Hgt.
           exists (length l). split; [|split; [exact Hqx|]].
           { rewrite lookup_app_r by lia. by rewrite Nat.sub_diag. }
           intros j r Hj Hqr.
           destruct (decide (j < length l)%nat) as [Hjl|Hjl].
           ++ rewrite lookup_app_l in Hj by exact Hjl.
              destruct (Hmax j r Hj Hqr) as [Hle _].
              pose proof (key_le_lt_trans _ _ _ Hle Hgt) as Hlt.
              split; [left; exact Hlt|intros _; exact Hlt].
           ++ rewrite lookup_app_r in Hj by lia.
              destruct (j - length l)%nat eqn:E; simpl in Hj; [|done].
              injection Hj as <-. split; [apply key_le_refl|lia].
        -- exists i. split; [|split; [exact Hqb|]].
           { rewrite lookup_app_l by exact Hlen. exact Hi. }
           intros j r Hj Hqr.
           destruct (decide (j < length l)%nat) as [Hjl|Hjl].
           ++ rewrite lookup_app_l in Hj by exact Hjl.
              exact (Hmax j r Hj Hqr).
           ++ rewrite lookup_app_r in Hj by lia.
              destruct (j - length l)%nat eqn:E; simpl in Hj; [|done].
              injection Hj as <-.
              split; [apply key_not_gt_le; exact Hgt|lia].
      * exists i. split; [|split; [exact Hqb|]].
        { rewrite lookup_app_l by exact Hlen. exact Hi. }
        intros j r Hj Hqr.
        destruct (decide (j < length l)%nat) as [Hjl|Hjl].
        -- rewrite lookup_app_l in Hj by exact Hjl.
           exact (Hmax j r Hj Hqr).
        -- rewrite lookup_app_r in Hj by lia.
           destruct (j - length l)%nat eqn:E; simpl in Hj; [|done].
           injection Hj as <-. congruence.
    + destruct (qualifies x) eqn:Hqx.
      * exists (length l). split; [|split; [exact Hqx|]].
        { rewrite lookup_app_r by lia. by rewrite Nat.sub_diag. }
        intros j r Hj Hqr.
        destruct (decide (j < length l)%nat) as [Hjl|Hjl].
        -- rewrite lookup_app_l in Hj by exact Hjl.
           apply list_elem_of_lookup_2 in Hj. apply IH in Hj. congruence.
        -- rewrite lookup_app_r in Hj by lia.
           destruct (j - length l)%nat eqn:E; simpl in Hj; [|done].
           injection Hj as <-. split; [apply key_le_refl|lia].
      * intros r Hr. apply elem_of_app in Hr as [Hr|Hr]; [by apply IH|].
        apply list_elem_of_singleton in Hr. by subst.
Qed.

(** C3. The report lists the outcomes in registry order, and its
    [best_method], [best_ratio] and [best_confidence] are those of the
    lexicographic maximum of [(confidence, compression_ratio)] among the
    outcomes with [success] and [checksum_valid], the earliest one among
    equal keys; when no outcome qualifies, [best_method] is unset and the
    other two are 0. *)
Theorem best_selection rnd flog2 fmt path data algorithms :
  results (analyze_file rnd flog2 fmt path data algorithms)
  = (fun alg => test_decompression rnd flog2 fmt data (fst alg) (snd alg))
      <$> algorithms /\
  (((forall r, r ∈ results (analyze_file rnd flog2 fmt path data algorithms)
       -> qualifies r = false) /\
    best_method (analyze_file rnd flog2 fmt path data algorithms) = None /\
    best_ratio (analyze_file rnd flog2 fmt path data algorithms) = 0%Q /\
    best_confidence (analyze_file rnd flog2 fmt path data algorithms) = 0%Q)
   \/
   (exists i best,
      is_best (results (analyze_file rnd flog2 fmt path data algorithms))
        i best /\
      best_method (analyze_file rnd flog2 fmt path data algorithms)
      = Some (method best) /\
      best_ratio (analyze_file rnd flog2 fmt path data algorithms)
      = compression_ratio best /\
      best_confidence (analyze_file rnd flog2 fmt path data algorithms)
      = confidence best)).
Proof.
  unfold analyze_file.
  set (rs := (fun alg => test_decompression rnd flog2 fmt data (fst alg)
                           (snd alg)) <$> algorithms).
  pose proof (select_step_spec rs) as Hspec.
  rewrite select_step_filter in Hspec.
  destruct (filter (fun r => qualifies r = true) rs) as [|first rest];
    simpl; (split; [reflexivity|]).
  - left. repeat split; try reflexivity. exact Hspec.
  - right. destruct Hspec as [i Hi].
    exists i, (max_by_key first rest).
    split; [exact Hi|]. repeat split; reflexivity.
Qed.

(** ** The fuel of the byte-level loops is enough *)

Lemma lz77_frame_pos data flag bits : forall out pos,
  pos <= snd (lz77_frame data flag bits out pos).
Proof.
  induction bits as [|i bits IH]; intros out pos; cbn [lz77_frame snd];
    [lia|].
  destruct (len data <=? pos); cbn [snd]; [lia|].
  destruct (negb (Z.land (Z.shiftr flag (7 - i)) 1 =? 0)).
  - destruct (pos <? len data).
    + etrans; [|apply IH]. lia.
    + apply IH.
  - destruct (len data <=? pos + 2); cbn [snd]; [lia|].
    destruct ((_ =? 0) || (len out <? _)); cbn [snd]; [lia|].
    etrans; [|apply IH]. lia.
Qed.

Lemma lz77_loop_terminates data fuel : forall out pos,
  0 <= pos -> (Z.to_nat (len data - pos) < fuel)%nat ->
  is_Some (lz77_loop fuel data out pos).
Proof.
  induction fuel as [|fuel IH]; intros out pos Hpos Hfuel;
    cbn [lz77_loop]; [lia|].
  destruct (Z.ltb_spec pos (len data)) as [Hlt|Hge]; [|eauto].
  pose proof (lz77_frame_pos data (index data pos) (seqZ 0 8) out (pos + 1))
    as Hadv.
  destruct (lz77_frame data (index data pos) (seqZ 0 8) out (pos + 1))
    as [out' pos']; simpl in Hadv.
  apply IH; lia.
Qed.

(** [decompress_lz77] returns on every input, and never raises. *)
Lemma decompress_lz77_terminates data :
  exists out, decompress_lz77 data = Some (Ok out).
Proof.
  unfold decompress_lz77.
  destruct (lz77_loop_terminates data (S (length data)) [] 0) as [out Hout].
  - lia.
  - unfold len. lia.
  - exists out. rewrite Hout. reflexivity.
Qed.

Lemma vlq_group_terminates data fuel : forall pos value shift,
  0 <= pos -> (Z.to_nat (len data - pos) < fuel)%nat ->
  exists value' pos',
    vlq_group fuel data pos value shift = Some (value', pos') /\
    pos <= pos' /\ (pos < len data -> pos < pos').
Proof.
  induction fuel as [|fuel IH]; intros pos value shift Hpos Hfuel;
    cbn [vlq_group]; [lia|].
  destruct (Z.ltb_spec pos (len data)) as [Hlt|Hge].
  - destruct (Z.land (index data pos) 128 =? 0);
      [eexists _, _; split; [reflexivity|lia]|].
    destruct (28 <? shift + 7);
      [eexists _, _; split; [reflexivity|lia]|].
    destruct (IH (pos + 1)
                (Z.lor value (Z.shiftl (Z.land (index data pos) 127) shift))
                (shift + 7)) as (v' & p' & Hg & Hle & _); [lia|lia|].
    exists v', p'. split; [exact Hg|lia].
  - eexists _, _; split; [reflexivity|lia].
Qed.

Lemma vlq_loop_terminates data fuel : forall out pos,
  0 <= pos -> (Z.to_nat (len data - pos) < fuel)%nat ->
  is_Some (vlq_loop fuel data out pos).
Proof.
  induction fuel as [|fuel IH]; intros out pos Hpos Hfuel;
    cbn [vlq_loop]; [lia|].
  destruct (Z.ltb_spec pos (len data)) as [Hlt|Hge]; [|eauto].
  destruct (vlq_group_terminates data (S (length data)) pos 0 0)
    as (value & pos' & Hg & Hle & Hadv); [lia|unfold len; lia|].
  rewrite Hg. destruct (to_bytes_4_little value); [|eauto].
  apply IH; lia.
Qed.

(** [decompress_vlq] returns or raises on every input. *)
Lemma decompress_vlq_terminates data : is_Some (decompress_vlq data).
Proof.
  apply vlq_loop_terminates; [lia|unfold len; lia].
Qed.

(** ** The fuel of the Huffman decode loop is enough *)

Section HuffmanProgress.
Import BitStream.

(** A [read_bit] at a state that has a bit consumes exactly one bit. *)
Lemma read_bits_loop_progress blob n : forall acc c s,
  reachable blob c s -> has_bits s 1 = true -> (1 <= n)%nat ->
  exists c', reachable blob c' (snd (read_bits_loop n acc s)) /\ c + 1 <= c'.
Proof.
  destruct n as [|n]; intros acc c s Hr Hh Hn; [lia|].
  cbn [read_bits_loop].
  pose proof (reach_read_bit _ _ _ Hr) as Hr'.
  unfold takes_bit in Hr'. rewrite Hh in Hr'.
  destruct (read_bit s) as [b s'] eqn:E. cbn [snd] in Hr'.
  destruct (read_bits_loop_reachable blob n (Z.lor (Z.shiftl acc 1) b) _ _ Hr')
    as (c' & Hc' & Hle).
  exists c'. split; [exact Hc'|lia].
Qed.

Lemma match_code_progress blob skip_zero codes : forall c bs symbol bs',
  reachable blob c bs -> has_bits bs 1 = true ->
  positive_lengths skip_zero codes ->
  match_code skip_zero codes bs = Some (symbol, bs') ->
  exists c', reachable blob c' bs' /\ c + 1 <= c'.
Proof.
  induction codes as [|[sym [code_val code_len]] codes IH];
    intros c bs symbol bs' Hr Hh Hpos; cbn [match_code]; [discriminate|].
  apply Forall_cons in Hpos as [Hlen Hpos]. cbn [snd] in Hlen.
  destruct (skip_zero && (code_len =? 0)) eqn:Hskip.
  - apply IH; assumption.
  - assert (Hl : 0 < code_len).
    { destruct Hlen as [Hl|[-> ->]]; [exact Hl|discriminate]. }
    pose proof (peek_bits_state bs code_len) as Hst.
    destruct (peek_bits bs code_len) as [peeked bs1]. cbn [snd] in Hst.
    subst bs1. destruct (peeked =? code_val).
    + intros [= <- <-]. unfold read_bits.
      apply read_bits_loop_progress; [assumption|assumption|lia].
    + apply IH; assumption.
Qed.

Lemma huffman_loop_terminates blob skip_zero codes fuel : forall c bs out,
  reachable blob c bs -> positive_lengths skip_zero codes ->
  (Z.to_nat (8 * len blob - c) < fuel)%nat ->
  is_Some (huffman_loop fuel skip_zero codes bs out).
Proof.
  induction fuel as [|fuel IH]; intros c bs out Hr Hpos Hfuel;
    cbn [huffman_loop]; [lia|].
  destruct (has_bits bs 1) eqn:Hh; [|eauto].
  destruct (match_code skip_zero codes bs) as [[symbol bs']|] eqn:Hm;
    [|eauto].
  destruct (match_code_progress _ _ _ _ _ _ _ Hr Hh Hpos Hm)
    as (c' & Hr' & Hle).
  destruct (bytearray_append out symbol); [|eauto].
  apply (IH c'); [assumption|assumption|].
  destruct (reachable_inv _ _ _ Hr') as (_ & _ & Hc' & _). lia.
Qed.

End HuffmanProgress.

(** The generated table has no entry of length 0. *)
Lemma dict_set_Forall {V} (P : Z * V -> Prop) d k v :
  Forall P d -> P (k, v) -> Forall P (dict_set d k v).
Proof.
  induction 1 as [|[k' v'] d Hx Hd IH]; intros Hkv; cbn [dict_set].
  - by constructor.
  - destruct (k' =? k); constructor; auto.
Qed.

Lemma assign_symbols_positive length symbols : forall st,
  0 < length -> Forall (fun entry => 0 < entry.2.2) st.1 ->
  Forall (fun entry => 0 < entry.2.2)
    (fold_left (assign_symbol length) symbols st).1.
Proof.
  induction symbols as [|symbol symbols IH]; intros [codes code] Hl Hst;
    cbn [fold_left]; [exact Hst|].
  apply IH; [exact Hl|]. cbn [assign_symbol fst].
  apply dict_set_Forall; [exact Hst|exact Hl].
Qed.

Lemma assign_groups_positive groups lengths : forall st,
  Forall (fun l => 0 < l) lengths ->
  Forall (fun entry => 0 < entry.2.2) st.1 ->
  Forall (fun entry => 0 < entry.2.2)
    (fold_left (assign_group groups) lengths st).1.
Proof.
  induction lengths as [|length lengths IH]; intros st Hls Hst;
    cbn [fold_left]; [exact Hst|].
  apply Forall_cons in Hls as [Hl Hls].
  apply IH; [exact Hls|]. unfold assign_group.
  pose proof (assign_symbols_positive length
                (sorted (default [] (groups !! length))) st Hl Hst) as H.
  destruct (fold_left (assign_symbol length) _ st) as [codes code].
  exact H.
Qed.

Lemma add_to_groups_keys entries : forall groups : gmap Z (list Z),
  (forall k, is_Some (groups !! k) -> 0 < k) ->
  forall k, is_Some (fold_left add_to_group entries groups !! k) -> 0 < k.
Proof.
  induction entries as [|[symbol length] entries IH]; intros groups Hg;
    cbn [fold_left]; [exact Hg|].
  apply IH. intros k. unfold add_to_group.
  destruct (Z.ltb_spec 0 length) as [Hl|Hl]; [|apply Hg].
  destruct (decide (length = k)) as [<-|Hne]; [intros _; exact Hl|].
  rewrite lookup_insert_ne by exact Hne. apply Hg.
Qed.

Lemma generated_codes_positive bit_lengths :
  Forall (fun entry => 0 < entry.2.2)
    (_generate_canonical_huffman_codes bit_lengths).
Proof.
  unfold _generate_canonical_huffman_codes.
  apply assign_groups_positive; [|constructor].
  apply Forall_forall. intros l Hl. unfold sorted in Hl.
  rewrite merge_sort_Permutation in Hl.
  apply elem_of_elements, elem_of_dom in Hl.
  revert Hl. apply add_to_groups_keys.
  intros k. rewrite lookup_empty. intros [? [=]].
Qed.

Lemma simple_table_positive data symbols : forall codes pos,
  Forall (fun entry => 0 < entry.2.2) codes ->
  Forall (fun entry => 0 < entry.2.2) (simple_table data symbols codes pos).1.
Proof.
  induction symbols as [|symbol symbols IH]; intros codes pos Hc;
    cbn [simple_table]; [exact Hc|].
  destruct (len data <=? pos); [exact Hc|].
  destruct (Z.eqb_spec (index data pos) 0) as [E0|E0]; cbn [orb].
  - apply IH, Hc.
  - destruct (24 <? index data pos); [apply IH, Hc|].
    destruct (len data <? pos + 1 + (index data pos + 7) / 8); [exact Hc|].
    apply IH. apply dict_set_Forall; [exact Hc|]. cbn [snd].
    pose proof (byte_val_range (getbyte data pos)). unfold index in *. lia.
Qed.

Lemma positive_lengths_of skip_zero codes :
  Forall (fun entry => 0 < entry.2.2) codes -> positive_lengths skip_zero codes.
Proof.
  intros H. eapply Forall_impl; [exact H|]. intros entry He. left. exact He.
Qed.

Lemma huffman_fuel_enough stream skip_zero codes :
  Forall (fun entry => 0 < entry.2.2) codes ->
  is_Some (huffman_loop (huffman_fuel stream) skip_zero codes
             (BitStream.init stream) []).
Proof.
  intros Hc.
  apply (huffman_loop_terminates stream skip_zero codes _ 0);
    [constructor|by apply positive_lengths_of|].
  unfold huffman_fuel, len. lia.
Qed.

(** The three Huffman decoders return or raise on every input. *)
Lemma huffman_decoders_terminate data :
  is_Some (_decompress_huffman_standard data) /\
  is_Some (_decompress_huffman_canonical data) /\
  is_Some (_decompress_huffman_simple data).
Proof.
  unfold _decompress_huffman_standard, _decompress_huffman_canonical,
    _decompress_huffman_simple.
  repeat split.
  - destruct (len data <? 4); [eauto|].
    apply huffman_fuel_enough, generated_codes_positive.
  - destruct (len data <? 2); [eauto|].
    apply huffman_fuel_enough, generated_codes_positive.
  - destruct (len data <? 512); [eauto|].
    pose proof (simple_table_positive data (seqZ 0 256) [] 0 (Forall_nil_2 _))
      as Hpos.
    destruct (simple_table data (seqZ 0 256) [] 0) as [[|entry codes] pos];
      [eauto|].
    apply huffman_fuel_enough, Hpos.
Qed.

(** * Further properties *)

(** ** Bytes *)

Lemma byte_of_Z_val b : byte_of_Z (byte_val b) = b.
Proof.
  unfold byte_of_Z, byte_val. rewrite N2Z.id, Byte.of_to_N. reflexivity.
Qed.

Lemma byte_val_of_Z z : 0 <= z < 256 -> byte_val (byte_of_Z z) = z.
Proof.
  intros Hz. unfold byte_of_Z, byte_val.
  destruct (Byte.of_N (Z.to_N z)) as [b|] eqn:E; simpl.
  - apply Byte.to_of_N in E. rewrite E. lia.
  - apply Byte.of_N_None_iff in E. lia.
Qed.

Lemma bytearray_append_ok out v :
  0 <= v < 256 -> bytearray_append out v = Ok (out ++ [byte_of_Z v]).
Proof.
  intros Hv. unfold bytearray_append, byte_of_Z.
  destruct (Z.leb_spec 0 v); [|lia]. destruct (Z.ltb_spec v 256); [|lia].
  simpl. destruct (Byte.of_N (Z.to_N v)) as [b|] eqn:E; [reflexivity|].
  apply Byte.of_N_None_iff in E. lia.
Qed.

Lemma land_255_range x : 0 <= Z.land x 255 < 256.
Proof.
  change 255 with (Z.ones 8). rewrite Z.land_ones by lia.
  apply Z.mod_pos_bound. lia.
Qed.

Lemma len_app {A} (l k : list A) : len (l ++ k) = len l + len k.
Proof. unfold len. rewrite length_app. lia. Qed.

(** ** Bit-stream reader *)

(** X1. What [has_bits] decides on a reachable state. *)
Theorem has_bits_on_reachable blob c s n :
  BitStream.reachable blob c s ->
  BitStream.has_bits s n = true <-> c + cursor_ahead s + n <= 8 * len blob.
Proof. apply has_bits_reachable. Qed.

Lemma has_bits_on_reachable_witness :
  let s := snd (BitStream.read_bit (BitStream.init [xa5; x3c])) in
  BitStream.has_bits s 7 = true <-> 1 + cursor_ahead s + 7 <= 8 * len [xa5; x3c].
Proof.
  exact (has_bits_on_reachable [xa5; x3c] _ _ 7
           (BitStream.reach_read_bit _ _ _ (BitStream.reach_init _))).
Defined.

(** X2. Of the last byte of a blob only the first bit is ever consumed. *)
Theorem last_byte_bits_never_consumed blob c s :
  BitStream.reachable blob c s -> blob <> [] -> c <= 8 * len blob - 7.
Proof. apply consumed_bound. Qed.

Lemma last_byte_bits_never_consumed_witness :
  0 + BitStream.takes_bit (BitStream.init [xa5; x3c])
  <= 8 * len [xa5; x3c] - 7.
Proof.
  apply (last_byte_bits_never_consumed [xa5; x3c] _
           (snd (BitStream.read_bit (BitStream.init [xa5; x3c])))).
  - exact (BitStream.reach_read_bit _ _ _ (BitStream.reach_init _)).
  - discriminate.
Defined.






Lemma read_bit_load d p cb :
  p * 8 + 1 <= len d * 8 ->
  BitStream.read_bit (BitStream.mk d p 0 cb)
  = (Z.land (Z.shiftr (index d p) 7) 1, BitStream.mk d (p + 1) 1 (index d p)).
Proof.
  intros H. unfold BitStream.read_bit, BitStream.has_bits.
  cbn [BitStream.data BitStream.pos BitStream.bit_pos BitStream.current_byte].
  destruct (Z.leb_spec (p * 8 + 0 + 1) (len d * 8)); [|lia]. reflexivity.
Qed.

Lemma read_bit_inside d p k cb :
  1 <= k <= 7 -> p * 8 + k + 1 <= len d * 8 ->
  BitStream.read_bit (BitStream.mk d p k cb)
  = (Z.land (Z.shiftr cb (7 - k)) 1, BitStream.mk d p ((k + 1) mod 8) cb).
Proof.
  intros Hk H. unfold BitStream.read_bit, BitStream.has_bits.
  cbn [BitStream.data BitStream.pos BitStream.bit_pos BitStream.current_byte].
  destruct (Z.leb_spec (p * 8 + k + 1) (len d * 8)); [|lia].
  destruct (Z.eqb_spec k 0); [lia|]. reflexivity.
Qed.

Lemma read_bit_eof d p k cb :
  len d * 8 < p * 8 + k + 1 ->
  BitStream.read_bit (BitStream.mk d p k cb) = (0, BitStream.mk d p k cb).
Proof.
  intros H. unfold BitStream.read_bit, BitStream.has_bits.
  cbn [BitStream.data BitStream.pos BitStream.bit_pos BitStream.current_byte].
  destruct (Z.leb_spec (p * 8 + k + 1) (len d * 8)); [lia|]. reflexivity.
Qed.

(** X4. At a byte boundary, with one more byte after the current one,
    [read_bits(8)] returns the current byte, most significant bit first,
    and moves to the next byte boundary. *)
Theorem read_bits_whole_byte s :
  BitStream.bit_pos s = 0 -> 0 <= BitStream.pos s ->
  BitStream.pos s + 2 <= len (BitStream.data s) ->
  BitStream.read_bits s 8
  = (index (BitStream.data s) (BitStream.pos s),
     BitStream.mk (BitStream.data s) (BitStream.pos s + 1) 0
       (index (BitStream.data s) (BitStream.pos s))).
Proof.
  destruct s as [d p k cb].
  cbn [BitStream.data BitStream.pos BitStream.bit_pos]. intros -> Hp Hlen.
  unfold BitStream.read_bits. change (Z.to_nat 8) with 8%nat.
  cbn [BitStream.read_bits_loop].
  rewrite read_bit_load by lia.
  rewrite (read_bit_inside d (p + 1) 1) by lia. change ((1 + 1) mod 8) with 2.
  rewrite (read_bit_inside d (p + 1) 2) by lia. change ((2 + 1) mod 8) with 3.
  rewrite (read_bit_inside d (p + 1) 3) by lia. change ((3 + 1) mod 8) with 4.
  rewrite (read_bit_inside d (p + 1) 4) by lia. change ((4 + 1) mod 8) with 5.
  rewrite (read_bit_inside d (p + 1) 5) by lia. change ((5 + 1) mod 8) with 6.
  rewrite (read_bit_inside d (p + 1) 6) by lia. change ((6 + 1) mod 8) with 7.
  rewrite (read_bit_inside d (p + 1) 7) by lia. change ((7 + 1) mod 8) with 0.
  f_equal. unfold index. generalize (getbyte d p). intros b.
  destruct b; reflexivity.
Qed.

Lemma read_bits_whole_byte_witness :
  BitStream.read_bits (BitStream.init [xa5; x3c]) 8
  = (index [xa5; x3c] 0, BitStream.mk [xa5; x3c] (0 + 1) 0 (index [xa5; x3c] 0)).
Proof.
  apply (read_bits_whole_byte (BitStream.init [xa5; x3c]));
    [reflexivity | reflexivity | vm_compute; discriminate].
Defined.

(** X5. At the boundary of the last byte, [read_bits(8)] returns only the
    top bit of that byte, followed by seven filler zeros. *)
Theorem read_bits_last_byte s :
  BitStream.bit_pos s = 0 -> 0 <= BitStream.pos s ->
  BitStream.pos s + 1 = len (BitStream.data s) ->
  fst (BitStream.read_bits s 8)
  = Z.land (index (BitStream.data s) (BitStream.pos s)) 128.
Proof.
  destruct s as [d p k cb].
  cbn [BitStream.data BitStream.pos BitStream.bit_pos]. intros -> Hp Hlen.
  unfold BitStream.read_bits. change (Z.to_nat 8) with 8%nat.
  cbn [BitStream.read_bits_loop].
  rewrite read_bit_load by lia.
  do 7 (rewrite (read_bit_eof d (p + 1) 1) by lia).
  cbn [fst]. unfold index. generalize (getbyte d p). intros b.
  destruct b; reflexivity.
Qed.

Lemma read_bits_last_byte_witness :
  fst (BitStream.read_bits (BitStream.init [xa5]) 8)
  = Z.land (index [xa5] 0) 128.
Proof.
  apply (read_bits_last_byte (BitStream.init [xa5]));
    [reflexivity | reflexivity | reflexivity].
Defined.

(** ** Canonical Huffman code generator *)

Lemma enumerate_elem {A} (l : list A) s x :
  (s, x) ∈ enumerate l <-> 0 <= s /\ l !! Z.to_nat s = Some x.
Proof.
  unfold enumerate, zip. rewrite list_elem_of_lookup. split.
  - intros [i Hi]. apply lookup_zip_with_Some in Hi
      as (s' & x' & [= -> ->] & Hs & Hx).
    apply lookup_seqZ in Hs as [-> _]. rewrite Z.add_0_l, Nat2Z.id.
    split; [lia|exact Hx].
  - intros [Hs Hx]. exists (Z.to_nat s). apply lookup_zip_with_Some.
    exists s, x. split; [reflexivity|]. split; [|exact Hx].
    apply lookup_seqZ. apply lookup_lt_Some in Hx. unfold len. lia.
Qed.

Lemma sorted_elem x l : x ∈ sorted l <-> x ∈ l.
Proof. unfold sorted. by rewrite merge_sort_Permutation. Qed.

(** The groups hold symbols of the vector, under their length. *)
Lemma add_to_groups_sound (E : list (Z * Z)) entries :
  forall groups : gmap Z (list Z),
  (forall e, e ∈ entries -> e ∈ E) ->
  (forall l syms s, groups !! l = Some syms -> s ∈ syms ->
     (s, l) ∈ E /\ 0 < l) ->
  forall l syms s,
    fold_left add_to_group entries groups !! l = Some syms -> s ∈ syms ->
    (s, l) ∈ E /\ 0 < l.
Proof.
  induction entries as [|[symbol length] entries IH]; intros groups Hsub Hg;
    cbn [fold_left]; [exact Hg|].
  apply IH.
  - intros e He. apply Hsub. by right.
  - intros l syms s. unfold add_to_group.
    destruct (Z.ltb_spec 0 length) as [Hl|Hl]; [|apply Hg].
    destruct (decide (length = l)) as [<-|Hne].
    + rewrite lookup_insert_eq. intros [= <-] Hs.
      apply elem_of_app in Hs as [Hs|Hs].
      * destruct (groups !! length) as [old|] eqn:E'; simpl in Hs.
        -- exact (Hg _ _ _ E' Hs).
        -- inversion Hs.
      * apply list_elem_of_singleton in Hs as ->.
        split; [apply Hsub; by left|exact Hl].
    + rewrite lookup_insert_ne by exact Hne. apply Hg.
Qed.

(** Every symbol of positive length is in the group of its length. *)
Lemma add_to_groups_keep entries : forall (groups : gmap Z (list Z)) l syms s,
  groups !! l = Some syms -> s ∈ syms ->
  exists syms', fold_left add_to_group entries groups !! l = Some syms'
                /\ s ∈ syms'.
Proof.
  induction entries as [|[symbol length] entries IH];
    intros groups l syms s Hl Hs; cbn [fold_left]; [eauto|].
  unfold add_to_group at 2. destruct (0 <? length); [|eauto].
  destruct (decide (length = l)) as [<-|Hne].
  - eapply IH; [apply lookup_insert_eq|].
    rewrite Hl. simpl. apply elem_of_app. by left.
  - eapply IH; [|exact Hs]. rewrite lookup_insert_ne by exact Hne. exact Hl.
Qed.

Lemma add_to_groups_complete entries : forall (groups : gmap Z (list Z)) s l,
  (s, l) ∈ entries -> 0 < l ->
  exists syms, fold_left add_to_group entries groups !! l = Some syms
               /\ s ∈ syms.
Proof.
  induction entries as [|[symbol length] entries IH]; intros groups s l Hin Hl;
    [inversion Hin|].
  cbn [fold_left]. apply elem_of_cons in Hin as [[= <- <-]|Hin].
  - unfold add_to_group at 2. destruct (Z.ltb_spec 0 l); [|lia].
    eapply add_to_groups_keep; [apply lookup_insert_eq|].
    apply elem_of_app. right. by left.
  - by apply IH.
Qed.

(** Entries are only added under a length and a symbol of its group. *)
Lemma assign_symbols_Forall (Q : Z * (Z * Z) -> Prop) length symbols :
  forall st,
  (forall s c, s ∈ symbols -> Q (s, (c, length))) ->
  Forall Q st.1 ->
  Forall Q (fold_left (assign_symbol length) symbols st).1.
Proof.
  induction symbols as [|symbol symbols IH]; intros [codes code] HQ Hst;
    cbn [fold_left]; [exact Hst|].
  apply IH; [intros s c Hs; apply HQ; by right|].
  cbn [assign_symbol fst]. apply dict_set_Forall; [exact Hst|].
  apply HQ. by left.
Qed.

Lemma assign_groups_Forall (Q : Z * (Z * Z) -> Prop) groups lengths :
  forall st,
  (forall l s c, l ∈ lengths -> s ∈ default [] (groups !! l) ->
     Q (s, (c, l))) ->
  Forall Q st.1 ->
  Forall Q (fold_left (assign_group groups) lengths st).1.
Proof.
  induction lengths as [|length lengths IH]; intros st HQ Hst;
    cbn [fold_left]; [exact Hst|].
  apply IH; [intros l s c Hl; apply HQ; by right|].
  unfold assign_group.
  pose proof (assign_symbols_Forall Q length
                (sorted (default [] (groups !! length))) st) as H.
  destruct (fold_left (assign_symbol length) _ st) as [codes code].
  apply H; [|exact Hst].
  intros s c Hs. apply HQ; [by left|]. by apply sorted_elem.
Qed.

(** The keys of a dict after [d[k] = v]. *)
Lemma dict_set_keys {V} (d : list (Z * V)) k v :
  (dict_set d k v).*1 = if decide (k ∈ d.*1) then d.*1 else d.*1 ++ [k].
Proof.
  induction d as [|[k' v'] d IH]; cbn [dict_set fmap list_fmap fst].
  - rewrite decide_False by (intros H; inversion H). reflexivity.
  - destruct (Z.eqb_spec k' k) as [->|Hne].
    + rewrite decide_True by (by left). reflexivity.
    + cbn [fmap list_fmap fst]. fold (fmap (M:=list) (@fst Z V)).
      rewrite IH. destruct (decide (k ∈ d.*1)) as [Hin|Hnin].
      * rewrite decide_True by (by right). reflexivity.
      * rewrite decide_False; [reflexivity|].
        intros Hc. apply elem_of_cons in Hc as [?|?]; [congruence|done].
Qed.

Lemma dict_set_key_in {V} (d : list (Z * V)) k v s :
  s ∈ (dict_set d k v).*1 <-> s ∈ d.*1 \/ s = k.
Proof.
  rewrite dict_set_keys. destruct (decide (k ∈ d.*1)) as [Hin|Hnin].
  - split; [by left|]. intros [H| ->]; assumption.
  - rewrite elem_of_app, list_elem_of_singleton. reflexivity.
Qed.


Lemma assign_symbols_keys length symbols : forall st s,
  s ∈ (fold_left (assign_symbol length) symbols st).1.*1
  <-> s ∈ st.1.*1 \/ s ∈ symbols.
Proof.
  induction symbols as [|symbol symbols IH]; intros [codes code] s;
    cbn [fold_left].
  - split; [by left|]. intros [H|H]; [exact H|inversion H].
  - rewrite IH. cbn [assign_symbol fst]. rewrite dict_set_key_in.
    rewrite elem_of_cons. tauto.
Qed.


Lemma assign_groups_keys groups lengths : forall st s,
  s ∈ (fold_left (assign_group groups) lengths st).1.*1
  <-> s ∈ st.1.*1 \/
      exists l, l ∈ lengths /\ s ∈ default [] (groups !! l).
Proof.
  induction lengths as [|length lengths IH]; intros st s; cbn [fold_left].
  - split; [by left|]. intros [H|(l & Hl & _)]; [exact H|inversion Hl].
  - rewrite IH. unfold assign_group.
    pose proof (assign_symbols_keys length
                  (sorted (default [] (groups !! length))) st s) as H.
    destruct (fold_left (assign_symbol length) _ st) as [codes code].
    cbn [fst] in *. rewrite H, sorted_elem. split.
    + intros [[Hs|Hs]|(l & Hl & Hs)].
      * by left.
      * right. exists length. split; [by left|exact Hs].
      * right. exists l. split; [by right|exact Hs].
    + intros [Hs|(l & Hl & Hs)]; [by left; left|].
      apply elem_of_cons in Hl as [->|Hl].
      * left. by right.
      * right. exists l. by split.
Qed.


Lemma length_of_enumerate bit_lengths s l :
  (s, l) ∈ enumerate bit_lengths <-> length_of bit_lengths s = Some l.
Proof.
  rewrite enumerate_elem. unfold length_of.
  destruct (Z.leb_spec 0 s) as [Hs|Hs]; split.
  - by intros [_ Hl].
  - by intros Hl.
  - intros [? _]. lia.
  - discriminate.
Qed.

(** X6. The generated table has an entry for a symbol exactly when the
    length vector gives it a positive length, and the entry carries that
    length. *)
Theorem generated_codes_symbols bit_lengths s l :
  (exists c, (s, (c, l)) ∈ _generate_canonical_huffman_codes bit_lengths)
  <-> length_of bit_lengths s = Some l /\ 0 < l.
Proof.
  assert (Hsound : Forall
    (fun entry => length_of bit_lengths entry.1 = Some entry.2.2
                  /\ 0 < entry.2.2)
    (_generate_canonical_huffman_codes bit_lengths)).
  { unfold _generate_canonical_huffman_codes.
    apply assign_groups_Forall; [|constructor].
    intros l' s' c Hl Hs. cbn [fst snd].
    apply sorted_elem, elem_of_elements, elem_of_dom in Hl as [syms Hsyms].
    rewrite Hsyms in Hs. cbn [default] in Hs.
    rewrite <- length_of_enumerate.
    apply (add_to_groups_sound (enumerate bit_lengths)
             (enumerate bit_lengths) ∅ (fun e He => He)) with syms.
    - intros l0 syms0 s0. rewrite lookup_empty. discriminate.
    - exact Hsyms.
    - exact Hs. }
  split.
  - intros [c Hin]. rewrite Forall_forall in Hsound.
    exact (Hsound _ Hin).
  - intros [Hlen Hl].
    apply length_of_enumerate in Hlen.
    destruct (add_to_groups_complete (enumerate bit_lengths) ∅ s l Hlen Hl)
      as (syms & Hsyms & Hs).
    assert (Hkey : s ∈ (_generate_canonical_huffman_codes bit_lengths).*1).
    { unfold _generate_canonical_huffman_codes.
      apply assign_groups_keys. right. exists l. split.
      - apply sorted_elem, elem_of_elements, elem_of_dom.
        unfold length_groups. eauto.
      - unfold length_groups. rewrite Hsyms. exact Hs. }
    apply list_elem_of_fmap in Hkey as ([s' [c l']] & -> & Hin).
    rewrite Forall_forall in Hsound. destruct (Hsound _ Hin) as [Hl' _].
    cbn [fst snd] in *. apply length_of_enumerate in Hlen.
    exists c. congruence.
Qed.


(** ** Huffman decoders *)

Lemma add_to_groups_zero entries : forall groups : gmap Z (list Z),
  Forall (fun e => e.2 = 0) entries ->
  fold_left add_to_group entries groups = groups.
Proof.
  induction entries as [|[symbol length] entries IH]; intros groups Hz;
    cbn [fold_left]; [reflexivity|].
  apply Forall_cons in Hz as [Hl Hz]. cbn [snd] in Hl. subst length.
  unfold add_to_group at 2. cbn. by apply IH.
Qed.

(** Padding the length vector with zeros does not change the table. *)
Lemma generated_codes_padding bit_lengths n :
  _generate_canonical_huffman_codes (bit_lengths ++ replicate n 0)
  = _generate_canonical_huffman_codes bit_lengths.
Proof.
  assert (Hg : length_groups (bit_lengths ++ replicate n 0)
               = length_groups bit_lengths).
  { unfold length_groups, enumerate.
    rewrite len_app, seqZ_app by apply len_nonneg.
    rewrite zip_with_app by (rewrite length_seqZ; unfold len; lia).
    rewrite fold_left_app. apply add_to_groups_zero.
    apply Forall_forall. intros [s l] Hin. cbn [snd].
    apply elem_of_zip_r in Hin. by apply elem_of_replicate in Hin as [-> _]. }
  unfold _generate_canonical_huffman_codes. rewrite Hg. reflexivity.
Qed.

(** On a table without zero lengths the [code_len == 0] test of the
    standard variant changes nothing. *)
Lemma match_code_skip codes : forall bs,
  Forall (fun entry => 0 < entry.2.2) codes ->
  match_code true codes bs = match_code false codes bs.
Proof.
  induction codes as [|[symbol [code_val code_len]] codes IH]; intros bs Hpos;
    cbn [match_code]; [reflexivity|].
  apply Forall_cons in Hpos as [Hl Hpos]. cbn [snd] in Hl.
  destruct (Z.eqb_spec code_len 0) as [E|E]; [lia|]. cbn [andb].
  destruct (BitStream.peek_bits bs code_len) as [peeked bs1].
  destruct (peeked =? code_val); [reflexivity|]. by apply IH.
Qed.

Lemma huffman_loop_skip codes fuel : forall bs out,
  Forall (fun entry => 0 < entry.2.2) codes ->
  huffman_loop fuel true codes bs out = huffman_loop fuel false codes bs out.
Proof.
  induction fuel as [|fuel IH]; intros bs out Hpos; cbn [huffman_loop];
    [reflexivity|].
  rewrite match_code_skip by exact Hpos.
  destruct (BitStream.has_bits bs 1); [|reflexivity].
  destruct (match_code false codes bs) as [[symbol bs']|]; [|reflexivity].
  destruct (bytearray_append out symbol); [|reflexivity]. by apply IH.
Qed.

(** X8. On every input of at least 4 bytes the standard and the canonical
    variant return the same result. *)
Theorem huffman_standard_is_canonical data :
  4 <= len data ->
  _decompress_huffman_standard data = _decompress_huffman_canonical data.
Proof.
  intros Hlen. unfold _decompress_huffman_standard,
    _decompress_huffman_canonical.
  destruct (Z.ltb_spec (len data) 4); [lia|].
  destruct (Z.ltb_spec (len data) 2); [lia|].
  set (count := if index data 0 =? 0 then Z.min 256 (len data - 1)
                else index data 0).
  assert (Hcount : count <= 256).
  { subst count. pose proof (byte_val_range (getbyte data 0)).
    unfold index. destruct (_ =? 0); lia. }
  destruct (Z.ltb_spec 256 count); [lia|].
  rewrite generated_codes_padding.
  apply huffman_loop_skip, generated_codes_positive.
Qed.

Lemma huffman_standard_is_canonical_witness :
  _decompress_huffman_standard [x02; x01; x01; xa0; x00]
  = _decompress_huffman_canonical [x02; x01; x01; xa0; x00].
Proof.
  apply (huffman_standard_is_canonical [x02; x01; x01; xa0; x00]).
  vm_compute. discriminate.
Defined.

Lemma huffman_try_formats_nonempty formats : forall data out,
  huffman_try_formats formats data = Some (Ok out) ->
  0 < len out /\ exists f, f ∈ formats /\ f data = Some (Ok out).
Proof.
  induction formats as [|f formats IH]; intros data out;
    cbn [huffman_try_formats]; [discriminate|].
  destruct (f data) as [[o|msg]|] eqn:E; [| |discriminate].
  - destruct (Z.ltb_spec 0 (len o)) as [Hpos|Hz].
    + intros [= <-]. split; [exact Hpos|]. exists f. split; [by left|exact E].
    + intros H. destruct (IH _ _ H) as (Hl & g & Hg & Hgd).
      split; [exact Hl|]. exists g. split; [by right|exact Hgd].
  - intros H. destruct (IH _ _ H) as (Hl & g & Hg & Hgd).
    split; [exact Hl|]. exists g. split; [by right|exact Hgd].
Qed.

(** X9. When [decompress_huffman] returns, the input has at least 16
    bytes and the output is not empty; it is the output of the canonical
    variant or of the simple variant (the standard variant, tried second,
    never adds anything). *)
Theorem decompress_huffman_returns data out :
  decompress_huffman data = Some (Ok out) ->
  16 <= len data /\ 0 < len out /\
  (_decompress_huffman_canonical data = Some (Ok out) \/
   _decompress_huffman_simple data = Some (Ok out)).
Proof.
  unfold decompress_huffman.
  destruct (Z.ltb_spec (len data) 16) as [|Hlen]; [discriminate|].
  intros H. apply huffman_try_formats_nonempty in H as (Hl & f & Hf & Hfd).
  split; [exact Hlen|]. split; [exact Hl|].
  apply elem_of_cons in Hf as [->|Hf]; [by left|].
  apply elem_of_cons in Hf as [->|Hf].
  - left. rewrite <- huffman_standard_is_canonical by lia. exact Hfd.
  - apply list_elem_of_singleton in Hf as ->. by right.
Qed.

Lemma decompress_huffman_returns_witness :
  16 <= len ([x01; x01] ++ replicate 14 x00) /\
  0 < len (replicate 105 x00) /\
  (_decompress_huffman_canonical ([x01; x01] ++ replicate 14 x00)
   = Some (Ok (replicate 105 x00)) \/
   _decompress_huffman_simple ([x01; x01] ++ replicate 14 x00)
   = Some (Ok (replicate 105 x00))).
Proof.
  apply (decompress_huffman_returns ([x01; x01] ++ replicate 14 x00)
           (replicate 105 x00)).
  vm_compute. reflexivity.
Defined.

Lemma huffman_try_formats_terminates formats : forall data,
  Forall (fun f => is_Some (f data)) formats ->
  is_Some (huffman_try_formats formats data).
Proof.
  induction formats as [|f formats IH]; intros data Hall;
    cbn [huffman_try_formats]; [eauto|].
  apply Forall_cons in Hall as [[r Hf] Hall]. rewrite Hf.
  destruct r as [o|msg]; [|by apply IH].
  destruct (0 <? len o); [eauto|by apply IH].
Qed.

(** X10. [decompress_huffman] returns or raises on every input. *)
Theorem decompress_huffman_terminates data :
  is_Some (decompress_huffman data).
Proof.
  unfold decompress_huffman. destruct (len data <? 16); [eauto|].
  destruct (huffman_decoders_terminate data) as (Hs & Hc & Hsi).
  apply huffman_try_formats_terminates. repeat constructor; assumption.
Qed.

(** ** Run-length decoder *)

Lemma rle_loop_out data : forall out,
  rle_loop data out = out ++ rle_loop data [].
Proof.
  induction data as [data IH] using (induction_ltof1 _ (@length _)).
  unfold ltof in IH. intros out.
  destruct data as [|c [|v rest]]; cbn [rle_loop].
  - by rewrite app_nil_r.
  - by rewrite app_nil_r.
  - assert (Hlt : (length rest < length (c :: v :: rest))%nat)
      by (simpl; lia).
    rewrite (IH rest Hlt (out ++ _)), (IH rest Hlt ([] ++ _)).
    by rewrite app_nil_l, app_assoc.
Qed.

Lemma rle_loop_app a : forall b out,
  Nat.Even (length a) -> rle_loop (a ++ b) out = rle_loop b (rle_loop a out).
Proof.
  induction a as [a IH] using (induction_ltof1 _ (@length _)).
  unfold ltof in IH. intros b out Hev.
  destruct a as [|c [|v rest]].
  - reflexivity.
  - destruct Hev as [k Hk]. simpl in Hk. lia.
  - cbn [app rle_loop]. apply IH; [simpl; lia|].
    destruct Hev as [k Hk]. simpl in Hk. exists (k - 1)%nat. lia.
Qed.

(** X11. Decoding is a homomorphism on whole pairs: the decoding of [a ++ b],
    for [a] of even length, is the decoding of [a] followed by that of
    [b]. *)
Theorem decompress_rle_app a b :
  Nat.Even (length a) ->
  exists oa ob,
    decompress_rle a = Ok oa /\ decompress_rle b = Ok ob /\
    decompress_rle (a ++ b) = Ok (oa ++ ob).
Proof.
  intros Hev. exists (rle_loop a []), (rle_loop b []).
  unfold decompress_rle. repeat split.
  rewrite rle_loop_app by exact Hev. by rewrite rle_loop_out.
Qed.

Lemma decompress_rle_app_witness :
  exists oa ob,
    decompress_rle [x02; x41] = Ok oa /\ decompress_rle [x00; x42; x07] = Ok ob
    /\ decompress_rle ([x02; x41] ++ [x00; x42; x07]) = Ok (oa ++ ob).
Proof.
  apply (decompress_rle_app [x02; x41] [x00; x42; x07]).
  exists 1%nat. reflexivity.
Defined.

(** X12. On an input of odd length the last byte is ignored: the result is
    that of the input without it. *)
Theorem decompress_rle_ignores_last_byte data b :
  Nat.Even (length data) ->
  decompress_rle (data ++ [b]) = decompress_rle data.
Proof. apply decompress_rle_odd. Qed.

Lemma decompress_rle_ignores_last_byte_witness :
  decompress_rle ([x02; x41] ++ [x07]) = decompress_rle [x02; x41].
Proof.
  apply (decompress_rle_ignores_last_byte [x02; x41] x07).
  exists 1%nat. reflexivity.
Defined.

(** X13. [try_rle] of [main.py] raises on every input of odd length. *)
Theorem try_rle_odd_input_raises data :
  Nat.Odd (length data) -> try_rle data = Raise "Invalid RLE".
Proof. intros H. unfold try_rle. by apply try_rle_loop_odd. Qed.

Lemma try_rle_odd_input_raises_witness :
  try_rle [x02; x41; x07] = Raise "Invalid RLE".
Proof.
  apply (try_rle_odd_input_raises [x02; x41; x07]).
  exists 1%nat. reflexivity.
Defined.

(** ** Delta decoders *)

Lemma land_255_mod x : Z.land x 255 = x mod 256.
Proof. change 255 with (Z.ones 8). rewrite Z.land_ones by lia. reflexivity. Qed.

Lemma delta_loop_differences data : forall acc out0,
  exists o, delta_loop data acc out0 = Ok (out0 ++ o) /\
            differences acc o = data.
Proof.
  induction data as [|b data IH]; intros acc out0; cbn [delta_loop].
  - exists []. by rewrite app_nil_r.
  - pose proof (land_255_range (acc + byte_val b)) as Hr.
    rewrite bytearray_append_ok by exact Hr. cbn.
    destruct (IH (Z.land (acc + byte_val b) 255)
                (out0 ++ [byte_of_Z (Z.land (acc + byte_val b) 255)]))
      as (o & Ho & Hd).
    exists (byte_of_Z (Z.land (acc + byte_val b) 255) :: o).
    split; [by rewrite Ho, <- app_assoc|].
    cbn [differences]. rewrite byte_val_of_Z by exact Hr. rewrite Hd.
    f_equal. rewrite land_255_mod, Zminus_mod_idemp_l.
    replace (acc + byte_val b - acc) with (byte_val b) by lia.
    rewrite Z.mod_small by apply byte_val_range. apply byte_of_Z_val.
Qed.

Lemma delta_loop_of_differences o : forall acc out0,
  delta_loop (differences acc o) acc out0 = Ok (out0 ++ o).
Proof.
  induction o as [|x o IH]; intros acc out0; cbn [differences delta_loop].
  - by rewrite app_nil_r.
  - pose proof (byte_val_range x) as Hx.
    assert (Hacc : Z.land (acc + byte_val (byte_of_Z ((byte_val x - acc) mod 256)))
                     255 = byte_val x).
    { rewrite byte_val_of_Z by (apply Z.mod_pos_bound; lia).
      rewrite land_255_mod, Zplus_mod_idemp_r.
      replace (acc + (byte_val x - acc)) with (byte_val x) by lia.
      apply Z.mod_small, Hx. }
    rewrite Hacc, bytearray_append_ok by exact Hx. cbn.
    rewrite byte_of_Z_val, IH. by rewrite <- app_assoc.
Qed.

(** X14. [decompress_delta] never fails and inverts the successive
    differences modulo 256: it returns [out] exactly on the input made of
    the differences of [out]. *)
Theorem decompress_delta_inverts_differences data out :
  decompress_delta data = Ok out <-> data = differences 0 out.
Proof.
  unfold decompress_delta. split.
  - intros H. destruct (delta_loop_differences data 0 []) as (o & Ho & Hd).
    rewrite Ho in H. injection H as <-. symmetry. exact Hd.
  - intros ->. apply delta_loop_of_differences.
Qed.

Lemma delta_signed_loop_length data : forall acc out0,
  exists o, delta_signed_loop data acc out0 = Ok (out0 ++ o) /\
            len o = 2 * len data.
Proof.
  induction data as [|b data IH]; intros acc out0; cbn [delta_signed_loop].
  - exists []. by rewrite app_nil_r.
  - cbn zeta. set (acc' := Z.land _ 65535).
    rewrite bytearray_append_ok by apply land_255_range. cbn.
    rewrite bytearray_append_ok by apply land_255_range. cbn.
    match goal with |- context [delta_signed_loop data acc' ?o1] =>
      destruct (IH acc' o1) as (o & Ho & Hl) end.
    eexists (_ :: _ :: o). split.
    + rewrite Ho, <- !app_assoc. reflexivity.
    + unfold len in *. cbn [length]. lia.
Qed.

(** X15. [decompress_delta_signed] never fails and returns two bytes per
    input byte. *)
Theorem decompress_delta_signed_length data :
  exists out, decompress_delta_signed data = Ok out /\
              len out = 2 * len data.
Proof.
  destruct (delta_signed_loop_length data 0 []) as (o & Ho & Hl).
  exists o. split; [exact Ho|exact Hl].
Qed.

Lemma nibble_step_ok nibble current_value out :
  exists v b1 b2,
    nibble_step nibble current_value out = Ok (v, out ++ [b1; b2]) /\
    -32768 <= v <= 32767.
Proof.
  unfold nibble_step. cbn zeta.
  set (v := if 32767 <? _ then 32767 else _).
  rewrite bytearray_append_ok by apply land_255_range. cbn.
  rewrite bytearray_append_ok by apply land_255_range. cbn.
  eexists v, _, _. split; [by rewrite <- app_assoc|].
  subst v. destruct (Z.ltb_spec 32767 (current_value +
    (if nibble <=? 7 then nibble else nibble - 16))); [lia|].
  destruct (Z.ltb_spec (current_value +
    (if nibble <=? 7 then nibble else nibble - 16)) (-32768)); lia.
Qed.

Lemma nibble_signed_loop_length data : forall v out0,
  exists o, nibble_signed_loop data v out0 = Ok (out0 ++ o) /\
            len o = 4 * len data.
Proof.
  induction data as [|b data IH]; intros v out0; cbn [nibble_signed_loop].
  - exists []. by rewrite app_nil_r.
  - cbn zeta.
    destruct (nibble_step_ok (Z.land (Z.shiftr (byte_val b) 4) 15) v out0)
      as (v1 & b1 & b2 & -> & _). cbn.
    destruct (nibble_step_ok (Z.land (byte_val b) 15) v1 (out0 ++ [b1; b2]))
      as (v2 & b3 & b4 & -> & _). cbn.
    destruct (IH v2 ((out0 ++ [b1; b2]) ++ [b3; b4])) as (o & Ho & Hl).
    exists (b1 :: b2 :: b3 :: b4 :: o). split.
    + rewrite Ho, <- !app_assoc. reflexivity.
    + unfold len in *. cbn [length]. lia.
Qed.

(** X16. [decompress_nibble_signed] never fails and returns four bytes per
    input byte. *)
Theorem decompress_nibble_signed_length data :
  exists out, decompress_nibble_signed data = Ok out /\
              len out = 4 * len data.
Proof.
  destruct (nibble_signed_loop_length data 0 []) as (o & Ho & Hl).
  exists o. split; [exact Ho|exact Hl].
Qed.

(** ** DPCM *)

Lemma dpcm_loop_length predictor deltas : forall i prev out0,
  exists o, dpcm_loop predictor deltas i prev out0 = Ok (out0 ++ o) /\
            len o = len deltas.
Proof.
  induction deltas as [|d deltas IH]; intros i prev out0; cbn [dpcm_loop].
  - exists []. by rewrite app_nil_r.
  - cbn zeta. set (current := Z.max 0 (Z.min 255 _)).
    rewrite bytearray_append_ok by (subst current; lia). cbn.
    destruct (IH (i + 1) current (out0 ++ [byte_of_Z current]))
      as (o & Ho & Hl).
    exists (byte_of_Z current :: o). split.
    + rewrite Ho, <- app_assoc. reflexivity.
    + unfold len in *. cbn [length]. lia.
Qed.

(** X17. With any predictor, [decompress_dpcm] fails on the empty input
    only; on other inputs it returns as many bytes as it was given, the
    first one unchanged. *)
Theorem decompress_dpcm_length predictor data :
  match data with
  | [] => decompress_dpcm predictor data = Raise "Empty data for DPCM"
  | first :: _ =>
      exists out, decompress_dpcm predictor data = Ok (first :: out) /\
                  len (first :: out) = len data
  end.
Proof.
  destruct data as [|first rest]; [reflexivity|].
  unfold decompress_dpcm.
  destruct (dpcm_loop_length predictor rest 1 (byte_val first) [first])
    as (o & Ho & Hl).
  exists o. split; [exact Ho|]. unfold len in *. cbn [length]. lia.
Qed.

(** ** LZW *)

Lemma lzw_initial_dictionary_lookup b :
  lzw_initial_dictionary !! byte_val b = Some [b].
Proof. destruct b; vm_compute; reflexivity. Qed.

(** Every code is a byte and is found in the dictionary, whose first 256
    entries are never replaced: each code decodes to itself. *)
Lemma lzw_loop_identity rest : forall (dictionary : gmap Z bytes) dict_size w out,
  (forall b, dictionary !! byte_val b = Some [b]) -> 256 <= dict_size ->
  lzw_loop (byte_val <$> rest) dictionary dict_size w out = Ok (out ++ rest).
Proof.
  induction rest as [|b rest IH]; intros dictionary dict_size w out Hd Hs;
    cbn [fmap list_fmap lzw_loop].
  - by rewrite app_nil_r.
  - rewrite Hd. cbn. fold (fmap (M:=list) byte_val).
    rewrite IH; [by rewrite <- app_assoc| |lia].
    intros b'. rewrite lookup_insert_ne; [apply Hd|].
    pose proof (byte_val_range b'). lia.
Qed.

(** X18. [decompress_lzw] never fails and returns its input: the codes are
    single bytes, so the phrases added to the dictionary (from code 256 on)
    are never looked up. *)
Theorem decompress_lzw_identity data : decompress_lzw data = Ok data.
Proof.
  unfold decompress_lzw. destruct data as [|first rest]; [reflexivity|].
  cbn [fmap list_fmap]. fold (fmap (M:=list) byte_val).
  rewrite byte_of_Z_val.
  rewrite lzw_loop_identity; [reflexivity| |lia].
  apply lzw_initial_dictionary_lookup.
Qed.

(** ** LZ77 and VLQ *)

(** X19. [decompress_lz77] returns on every input: each frame advances the
    read position. *)
Theorem decompress_lz77_returns data :
  exists out, decompress_lz77 data = Some (Ok out).
Proof. apply decompress_lz77_terminates. Qed.

(** X20. [decompress_vlq] returns or raises on every input. *)
Theorem decompress_vlq_returns_or_raises data :
  is_Some (decompress_vlq data).
Proof. apply decompress_vlq_terminates. Qed.

Lemma to_bytes_4_little_small b :
  byte_val b < 128 ->
  to_bytes_4_little (byte_val b) = Ok [b; x00; x00; x00].
Proof.
  destruct b; intros H; vm_compute in H; try discriminate H;
    vm_compute; reflexivity.
Qed.

Lemma getbyte_drop data pos :
  0 <= pos < len data ->
  drop (Z.to_nat pos) data = getbyte data pos :: drop (Z.to_nat (pos + 1)) data.
Proof.
  intros Hpos. unfold getbyte.
  destruct (data !! Z.to_nat pos) as [b|] eqn:E.
  - replace (Z.to_nat (pos + 1)) with (S (Z.to_nat pos)) by lia.
    cbn [default]. by apply drop_S.
  - apply lookup_ge_None in E. unfold len in Hpos. lia.
Qed.

Lemma vlq_loop_small data fuel : forall out pos,
  Forall (fun b => byte_val b < 128) data ->
  0 <= pos -> (Z.to_nat (len data - pos) < fuel)%nat ->
  vlq_loop fuel data out pos
  = Some (Ok (out ++ (drop (Z.to_nat pos) data ≫= fun b => [b; x00; x00; x00]))).
Proof.
  induction fuel as [|fuel IH]; intros out pos Hsmall Hpos Hfuel;
    cbn [vlq_loop]; [lia|].
  destruct (Z.ltb_spec pos (len data)) as [Hlt|Hge].
  - cbn [vlq_group]. destruct (Z.ltb_spec pos (len data)); [|lia].
    assert (Hb : byte_val (getbyte data pos) < 128).
    { rewrite Forall_forall in Hsmall. apply Hsmall.
      unfold getbyte. destruct (data !! Z.to_nat pos) as [b|] eqn:E.
      - simpl. by eapply list_elem_of_lookup_2.
      - apply lookup_ge_None in E. unfold len in Hlt. lia. }
    pose proof (byte_val_range (getbyte data pos)) as Hr.
    assert (H128 : Z.land (index data pos) 128 = 0).
    { unfold index. change 128 with (2 ^ 7). apply Z.bits_inj'. intros i Hi.
      rewrite Z.land_spec, Z.bits_0.
      destruct (decide (i = 7)) as [->|Hne].
      - rewrite Z.pow2_bits_true by lia. rewrite andb_true_r.
        apply Z.bits_above_log2; [lia|].
        destruct (decide (byte_val (getbyte data pos) = 0)) as [->|Hnz];
          [simpl; lia|].
        apply Z.log2_lt_pow2; lia.
      - rewrite Z.pow2_bits_false by lia. apply andb_false_r. }
    rewrite H128. cbn.
    assert (Hv : Z.lor 0 (Z.shiftl (Z.land (index data pos) 127) 0)
                 = byte_val (getbyte data pos)).
    { rewrite Z.lor_0_l, Z.shiftl_0_r. unfold index.
      change 127 with (Z.ones 7). rewrite Z.land_ones by lia.
      apply Z.mod_small. change (2 ^ 7) with 128. lia. }
    rewrite Hv, to_bytes_4_little_small by exact Hb.
    rewrite IH by (try assumption; lia).
    rewrite (getbyte_drop data pos) by lia. cbn.
    by rewrite <- app_assoc.
  - rewrite drop_ge by (unfold len in Hge; lia). cbn. by rewrite app_nil_r.
Qed.

(** X21. On an input whose bytes all have the continuation bit clear, every
    byte is a value of its own, emitted as four little-endian bytes. *)
Theorem decompress_vlq_single_byte_values data :
  Forall (fun b => byte_val b < 128) data ->
  decompress_vlq data
  = Some (Ok (data ≫= fun b => [b; x00; x00; x00])).
Proof.
  intros Hsmall. unfold decompress_vlq.
  rewrite vlq_loop_small; [reflexivity|exact Hsmall|lia|unfold len; lia].
Qed.

Lemma decompress_vlq_single_byte_values_witness :
  decompress_vlq [x2c; x7f; x00]
  = Some (Ok ([x2c; x7f; x00] ≫= fun b => [b; x00; x00; x00])).
Proof.
  apply (decompress_vlq_single_byte_values [x2c; x7f; x00]).
  repeat constructor.
Defined.

(** ** Probe driver *)

Section ConfidenceRange.
Variable rnd : Q -> Q.
Hypothesis rnd_nonneg : forall q, (0 <= q -> 0 <= rnd q)%Q.

Lemma score_add_nonneg (b : bool) (score c : Q) :
  (0 <= score -> 0 <= c ->
   0 <= (if b then rnd (score + rnd c) else score))%Q.
Proof.
  intros Hs Hc. destruct b; [|exact Hs].
  apply rnd_nonneg. rewrite <- (Qplus_0_l 0).
  apply Qplus_le_compat; [exact Hs|by apply rnd_nonneg].
Qed.

Lemma score_add2_nonneg (b1 b2 : bool) (score c1 c2 : Q) :
  (0 <= score -> 0 <= c1 -> 0 <= c2 ->
   0 <= (if b1 then rnd (score + rnd c1)
         else if b2 then rnd (score + rnd c2) else score))%Q.
Proof.
  intros Hs Hc1 Hc2. destruct b1; [by apply (score_add_nonneg true)|].
  by apply score_add_nonneg.
Qed.

Lemma calculate_confidence_range r :
  (0 <= calculate_confidence rnd r <= 1)%Q.
Proof.
  unfold calculate_confidence.
  destruct (success r); cbn [negb]; [|split; discriminate].
  cbv zeta.
  match goal with
  | |- (0 <= (if float_lt ?s 1 then _ else _) <= 1)%Q =>
      assert (Hs : (0 <= s)%Q); [|destruct (float_lt s 1) eqn:Hlt]
  end.
  - apply score_add_nonneg; [|discriminate].
    apply score_add_nonneg; [|discriminate].
    apply score_add2_nonneg; [|discriminate|discriminate].
    apply score_add2_nonneg; discriminate.
  - split; [exact Hs|]. apply float_lt_spec in Hlt. by apply Qlt_le_weak.
  - split; discriminate.
Qed.

End ConfidenceRange.

(** X22. When rounding keeps non-negative numbers non-negative, the
    confidence of every outcome lies between 0 and 1. *)
Theorem outcome_confidence_range rnd flog2 fmt data name f :
  (forall q, (0 <= q -> 0 <= rnd q)%Q) ->
  (0 <= confidence (test_decompression rnd flog2 fmt data name f) <= 1)%Q.
Proof.
  intros Hrnd. unfold test_decompression. destruct (f data) as [out|msg].
  - destruct (validate_decompressed_data _ _ _ _ _) as [valid msg].
    cbn [set_confidence confidence].
    by apply calculate_confidence_range.
  - cbn [confidence]. split; discriminate.
Qed.

Lemma outcome_confidence_range_witness :
  (0 <= confidence (test_decompression (fun q => q) (fun _ => - (2))%Q
                      (fun spec _ => spec) [x01; x02] "lzw" decompress_lzw)
   <= 1)%Q.
Proof.
  apply (outcome_confidence_range (fun q => q) (fun _ => - (2))%Q
           (fun spec _ => spec) [x01; x02] "lzw" decompress_lzw).
  intros q Hq. exact Hq.
Defined.

Lemma filter_partition_len {A} (P : A -> bool) (l : list A) :
  len (filter (fun r => P r = true) l) + len (filter (fun r => P r = false) l)
  = len l.
Proof.
  unfold len. induction l as [|x l IH]; [reflexivity|].
  rewrite !filter_cons. destruct (P x) eqn:E.
  - rewrite decide_True by reflexivity. rewrite decide_False by discriminate.
    cbn [length]. lia.
  - rewrite decide_False by discriminate. rewrite decide_True by reflexivity.
    cbn [length]. lia.
Qed.

(** X23. The report has one outcome per registry entry, and every outcome
    is counted once, as a success or as a failure. *)
Theorem report_counts rnd flog2 fmt path data algorithms :
  total_tests (analyze_file rnd flog2 fmt path data algorithms)
  = len algorithms /\
  success_count (analyze_file rnd flog2 fmt path data algorithms)
  + failed_count (analyze_file rnd flog2 fmt path data algorithms)
  = total_tests (analyze_file rnd flog2 fmt path data algorithms).
Proof.
  unfold analyze_file.
  destruct (filter (fun r => qualifies r = true) _) as [|first rest];
    cbn [total_tests success_count failed_count]; split;
    try apply filter_partition_len;
    unfold len; by rewrite length_fmap.
Qed.

(** The validator accepts only a non-empty output of a non-empty input. *)
Lemma validate_accepts_nonempty rnd flog2 fmt out original_size :
  (validate_decompressed_data rnd flog2 fmt out original_size).1 = true ->
  0 < len out /\ 0 < original_size.
Proof.
  unfold validate_decompressed_data.
  destruct (Z.eqb_spec (len out) 0) as [E|E]; [discriminate|].
  pose proof (len_nonneg out).
  destruct (Z.ltb_spec 0 original_size) as [Hpos|Hz]; [intros _; lia|].
  change (float_gt 0 100) with false. change (float_lt 0 (1 # 2)) with true.
  discriminate.
Qed.

(** X24. An outcome that passed validation is a success with a non-empty
    payload, obtained from a non-empty input. *)
Theorem validated_outcome_sizes rnd flog2 fmt data name f :
  checksum_valid (test_decompression rnd flog2 fmt data name f) = true ->
  success (test_decompression rnd flog2 fmt data name f) = true /\
  0 < decompressed_size (test_decompression rnd flog2 fmt data name f) /\
  0 < original_size (test_decompression rnd flog2 fmt data name f).
Proof.
  unfold test_decompression. destruct (f data) as [out|msg]; [|discriminate].
  pose proof (validate_accepts_nonempty rnd flog2 fmt out (len data)) as Hv.
  destruct (validate_decompressed_data _ _ _ _ _) as [valid msg].
  cbn [set_confidence checksum_valid success decompressed_size original_size
       fst] in *.
  intros ->. split; [reflexivity|]. by apply Hv.
Qed.

Lemma validated_outcome_sizes_witness :
  let r := test_decompression (fun q => q) (fun _ => - (2))%Q
             (fun spec _ => spec) [x01; x02] "lzw" decompress_lzw in
  success r = true /\ 0 < decompressed_size r /\ 0 < original_size r.
Proof.
  apply (validated_outcome_sizes (fun q => q) (fun _ => - (2))%Q
           (fun spec _ => spec) [x01; x02] "lzw" decompress_lzw).
  vm_compute. reflexivity.
Defined.

Lemma test_decompression_original_size rnd flog2 fmt data name f :
  original_size (test_decompression rnd flog2 fmt data name f) = len data.
Proof.
  unfold test_decompression. destruct (f data) as [out|msg]; [|reflexivity].
  destruct (validate_decompressed_data _ _ _ _ _). reflexivity.
Qed.

(** X25. On the empty blob no outcome passes validation, so the report has
    no best method, whatever the registry. *)
Theorem empty_blob_has_no_best rnd flog2 fmt path algorithms :
  best_method (analyze_file rnd flog2 fmt path [] algorithms) = None /\
  forall r, r ∈ results (analyze_file rnd flog2 fmt path [] algorithms) ->
    checksum_valid r = false.
Proof.
  assert (Hall : forall r,
    r ∈ ((fun alg => test_decompression rnd flog2 fmt [] (fst alg) (snd alg))
           <$> algorithms) -> checksum_valid r = false).
  { intros r Hr. apply list_elem_of_fmap in Hr as ([name f] & -> & _).
    apply not_true_is_false. intros Hv.
    apply validated_outcome_sizes in Hv as (_ & _ & Hsize).
    rewrite test_decompression_original_size in Hsize.
    unfold len in Hsize. cbn [length] in Hsize. lia. }
  unfold analyze_file.
  destruct (filter (fun r => qualifies r = true) _) as [|first rest] eqn:E;
    cbn [best_method results]; split; try exact Hall; [reflexivity|].
  assert (Hin : first ∈ filter (fun r => qualifies r = true)
    ((fun alg => test_decompression rnd flog2 fmt [] (fst alg) (snd alg))
       <$> algorithms)) by (rewrite E; by left).
  apply list_elem_of_filter in Hin as [Hq Hin].
  apply Hall in Hin. unfold qualifies in Hq. rewrite Hin in Hq.
  by rewrite andb_false_r in Hq.
Qed.

(** ** ECG leads *)

Lemma lor_shiftl_8 lo hi :
  0 <= lo < 256 -> 0 <= hi -> Z.lor lo (Z.shiftl hi 8) = lo + 256 * hi.
Proof.
  intros Hlo Hhi. rewrite Z.shiftl_mul_pow2 by lia. change (2 ^ 8) with 256.
  rewrite <- Z.lxor_lor, <- Z.add_nocarry_lxor; [lia| |];
    (apply Z.bits_inj'; intros i Hi; rewrite Z.land_spec, Z.bits_0;
     destruct (Z.ltb_spec i 8);
     [ change 256 with (2 ^ 8); rewrite Z.mul_pow2_bits_low by lia;
       apply andb_false_r
     | assert (Z.testbit lo i = false) as ->; [|reflexivity];
       destruct (decide (lo = 0)) as [->|]; [apply Z.bits_0|];
       apply Z.bits_above_log2; [lia|];
       apply Z.lt_le_trans with 8; [|lia];
       apply Z.log2_lt_pow2; [lia|]; change (2 ^ 8) with 256; lia ]).
Qed.

(** A sample read from two bytes is emitted as those two bytes. *)
Lemma serialize_sample data offset out :
  let sample := Z.max (-32768) (Z.min 32767 (ecg_sample data offset)) in
  bytearray_extend out [Z.land sample 255; Z.land (Z.shiftr sample 8) 255]
  = Ok (out ++ [getbyte data offset; getbyte data (offset + 1)]).
Proof.
  cbv zeta. unfold ecg_sample, index.
  pose proof (byte_val_range (getbyte data offset)) as Hlo.
  pose proof (byte_val_range (getbyte data (offset + 1))) as Hhi.
  rewrite lor_shiftl_8 by lia.
  set (lo := byte_val (getbyte data offset)) in *.
  set (hi := byte_val (getbyte data (offset + 1))) in *.
  set (c := Z.max _ _).
  assert (Hc : c = lo + 256 * hi \/ c = lo + 256 * hi - 65536).
  { subst c. destruct (Z.leb_spec 32768 (lo + 256 * hi)); lia. }
  assert (H1 : Z.land c 255 = lo).
  { rewrite land_255_mod. destruct Hc as [-> | ->];
      Z.div_mod_to_equations; lia. }
  assert (H2 : Z.land (Z.shiftr c 8) 255 = hi).
  { rewrite land_255_mod, Z.shiftr_div_pow2 by lia. change (2 ^ 8) with 256.
    destruct Hc as [-> | ->]; Z.div_mod_to_equations; lia. }
  rewrite H1, H2. cbn [bytearray_extend].
  rewrite bytearray_append_ok by exact Hlo. cbn.
  rewrite bytearray_append_ok by exact Hhi. cbn.
  subst lo hi. by rewrite !byte_of_Z_val, <- app_assoc.
Qed.

Lemma serialize_lead_app a : forall out b,
  serialize_lead out (a ++ b)
  = out' ← serialize_lead out a; serialize_lead out' b.
Proof.
  induction a as [|s a IH]; intros out b; cbn [app serialize_lead];
    [reflexivity|].
  cbv zeta. destruct (bytearray_extend out _) as [out'|msg]; cbn;
    [apply IH|reflexivity].
Qed.

Lemma getbyte_lookup data i :
  0 <= i < len data -> data !! Z.to_nat i = Some (getbyte data i).
Proof.
  intros Hi. unfold getbyte. destruct (data !! Z.to_nat i) eqn:E;
    [reflexivity|].
  apply lookup_ge_None in E. unfold len in Hi. lia.
Qed.

(** A lead stored as consecutive samples from [base] on is emitted as the
    bytes it was read from. *)
Lemma serialize_packed_lead data base k : forall out,
  0 <= base -> base + 2 * Z.of_nat k <= len data ->
  serialize_lead out
    (ecg_extract data (fun j => base + j * 2) (Z.of_nat k))
  = Ok (out ++ take (2 * k) (drop (Z.to_nat base) data)).
Proof.
  induction k as [|k IH]; intros out Hbase Hlen.
  - cbn. by rewrite app_nil_r.
  - unfold ecg_extract in *.
    replace (Z.of_nat (S k)) with (Z.of_nat k + 1) by lia.
    rewrite seqZ_app by lia.
    rewrite fmap_app, filter_app, fmap_app, serialize_lead_app.
    rewrite IH by lia. cbn [mbind result_bind].
    change (seqZ (0 + Z.of_nat k) 1) with [0 + Z.of_nat k].
    cbn [fmap list_fmap]. rewrite filter_cons, filter_nil.
    rewrite decide_True by lia.
    cbn [fmap list_fmap serialize_lead].
    rewrite serialize_sample. cbn [mbind result_bind].
    f_equal. rewrite <- app_assoc. f_equal.
    replace (2 * S k)%nat with (S (S (2 * k))) by lia.
    rewrite (take_S_r _ (S (2 * k))
               (getbyte data (base + (0 + Z.of_nat k) * 2 + 1))).
    + rewrite (take_S_r _ (2 * k)
                 (getbyte data (base + (0 + Z.of_nat k) * 2))).
      * by rewrite <- app_assoc.
      * rewrite lookup_drop, <- getbyte_lookup by lia. f_equal. lia.
    + rewrite lookup_drop, <- getbyte_lookup by lia. f_equal. lia.
Qed.

(** Twelve leads stored under the standard names are emitted in the
    standard order. *)
Lemma serialize_leads_standard_order
  (e0 e1 e2 e3 e4 e5 e6 e7 e8 e9 e10 e11 : list Z) out :
  serialize_leads
    (<["V6" := e11]> (<["V5" := e10]> (<["V4" := e9]> (<["V3" := e8]>
    (<["V2" := e7]> (<["V1" := e6]> (<["aVF" := e5]> (<["aVL" := e4]>
    (<["aVR" := e3]> (<["III" := e2]> (<["II" := e1]> (<["I" := e0]> ∅))))))))))))
    ecg_lead_order out
  = o ← serialize_lead out e0; o ← serialize_lead o e1;
    o ← serialize_lead o e2; o ← serialize_lead o e3;
    o ← serialize_lead o e4; o ← serialize_lead o e5;
    o ← serialize_lead o e6; o ← serialize_lead o e7;
    o ← serialize_lead o e8; o ← serialize_lead o e9;
    o ← serialize_lead o e10; serialize_lead o e11.
Proof.
  set (m := <["V6" := e11]> _).
  assert (H0 : m !! "I" = Some e0) by (vm_compute; reflexivity).
  assert (H1 : m !! "II" = Some e1) by (vm_compute; reflexivity).
  assert (H2 : m !! "III" = Some e2) by (vm_compute; reflexivity).
  assert (H3 : m !! "aVR" = Some e3) by (vm_compute; reflexivity).
  assert (H4 : m !! "aVL" = Some e4) by (vm_compute; reflexivity).
  assert (H5 : m !! "aVF" = Some e5) by (vm_compute; reflexivity).
  assert (H6 : m !! "V1" = Some e6) by (vm_compute; reflexivity).
  assert (H7 : m !! "V2" = Some e7) by (vm_compute; reflexivity).
  assert (H8 : m !! "V3" = Some e8) by (vm_compute; reflexivity).
  assert (H9 : m !! "V4" = Some e9) by (vm_compute; reflexivity).
  assert (H10 : m !! "V5" = Some e10) by (vm_compute; reflexivity).
  assert (H11 : m !! "V6" = Some e11) by (vm_compute; reflexivity).
  clearbody m. unfold ecg_lead_order. cbn [serialize_leads].
  rewrite H0. destruct (serialize_lead out e0) as [o0|]; [|reflexivity].
  cbn [mbind result_bind]. rewrite H1.
  destruct (serialize_lead o0 e1) as [o1|]; [|reflexivity].
  cbn [mbind result_bind]. rewrite H2.
  destruct (serialize_lead o1 e2) as [o2|]; [|reflexivity].
  cbn [mbind result_bind]. rewrite H3.
  destruct (serialize_lead o2 e3) as [o3|]; [|reflexivity].
  cbn [mbind result_bind]. rewrite H4.
  destruct (serialize_lead o3 e4) as [o4|]; [|reflexivity].
  cbn [mbind result_bind]. rewrite H5.
  destruct (serialize_lead o4 e5) as [o5|]; [|reflexivity].
  cbn [mbind result_bind]. rewrite H6.
  destruct (serialize_lead o5 e6) as [o6|]; [|reflexivity].
  cbn [mbind result_bind]. rewrite H7.
  destruct (serialize_lead o6 e7) as [o7|]; [|reflexivity].
  cbn [mbind result_bind]. rewrite H8.
  destruct (serialize_lead o7 e8) as [o8|]; [|reflexivity].
  cbn [mbind result_bind]. rewrite H9.
  destruct (serialize_lead o8 e9) as [o9|]; [|reflexivity].
  cbn [mbind result_bind]. rewrite H10.
  destruct (serialize_lead o9 e10) as [o10|]; [|reflexivity].
  cbn [mbind result_bind]. rewrite H11.
  destruct (serialize_lead o10 e11); reflexivity.
Qed.

Lemma take_chunk {A} (l : list A) c i :
  take (i * c) l ++ take c (drop (i * c) l) = take (S i * c) l.
Proof. rewrite take_take_drop. f_equal. lia. Qed.

Lemma serialize_packed_lead_Z data i n out :
  0 <= i -> 0 < n -> (i + 1) * (2 * n) <= len data ->
  serialize_lead out
    (ecg_extract data (fun j => (i * 2 * n) + (j * 2)) n)
  = Ok (out ++ take (Z.to_nat (2 * n))
                 (drop (Z.to_nat i * Z.to_nat (2 * n)) data)).
Proof.
  intros Hi Hn Hlen.
  pose proof (serialize_packed_lead data (i * 2 * n) (Z.to_nat n) out) as H.
  rewrite Z2Nat.id in H by lia. rewrite H by nia.
  replace (2 * Z.to_nat n)%nat with (Z.to_nat (2 * n)) by lia.
  replace (Z.to_nat (i * 2 * n)) with (Z.to_nat i * Z.to_nat (2 * n))%nat
    by nia.
  reflexivity.
Qed.

(** X26. [_try_ecg_reconstruction] fails on fewer than 24 bytes and otherwise
    returns its input unchanged, up to the last complete group of 24
    bytes: the twelve leads are read and written back in the same order. *)
Theorem try_ecg_reconstruction_identity data :
  _try_ecg_reconstruction data
  = if len data <? 24 then Raise "No complete ECG samples found"
    else Ok (take (Z.to_nat (24 * (len data / 24))) data).
Proof.
  unfold _try_ecg_reconstruction. pose proof (len_nonneg data) as Hnn.
  destruct (Z.ltb_spec (len data) 24) as [Hlt|Hge].
  - rewrite Z.div_small by lia. reflexivity.
  - assert (Hn : 0 < len data / 24) by (apply Z.div_str_pos; lia).
    assert (Hle : 24 * (len data / 24) <= len data)
      by (apply Z.mul_div_le; lia).
    destruct (Z.eqb_spec (len data / 24) 0) as [E|_]; [lia|].
    set (n := len data / 24) in *.
    unfold _serialize_ecg_samples, ecg_packed_leads.
    let x := eval vm_compute in (enumerate ecg_lead_order) in
      change (enumerate ecg_lead_order) with x.
    cbn [fold_left]. rewrite serialize_leads_standard_order.
    repeat (rewrite serialize_packed_lead_Z by lia; cbn [mbind result_bind]).
    set (c := Z.to_nat (2 * n)). cbn [app].
    change (Z.to_nat 0) with 0%nat. change (Z.to_nat 1) with 1%nat.
    change (Z.to_nat 2) with 2%nat. change (Z.to_nat 3) with 3%nat.
    change (Z.to_nat 4) with 4%nat. change (Z.to_nat 5) with 5%nat.
    change (Z.to_nat 6) with 6%nat. change (Z.to_nat 7) with 7%nat.
    change (Z.to_nat 8) with 8%nat. change (Z.to_nat 9) with 9%nat.
    change (Z.to_nat 10) with 10%nat. change (Z.to_nat 11) with 11%nat.
    change (drop (0 * c) data) with data.
    replace (take c data) with (take (1 * c) data) by (f_equal; lia).
    rewrite !take_chunk. do 2 f_equal. lia.
Qed.

Lemma serialize_lead_length samples : forall out,
  exists o, serialize_lead out samples = Ok (out ++ o) /\
            length o = (2 * length samples)%nat.
Proof.
  induction samples as [|s samples IH]; intros out; cbn [serialize_lead].
  - exists []. by rewrite app_nil_r.
  - cbv zeta. cbn [bytearray_extend].
    rewrite bytearray_append_ok by apply land_255_range. cbn.
    rewrite bytearray_append_ok by apply land_255_range. cbn.
    match goal with |- context [serialize_lead ?o1 samples] =>
      destruct (IH o1) as (o & Ho & Hl) end.
    eexists (_ :: _ :: o). split.
    + rewrite Ho, <- !app_assoc. reflexivity.
    + cbn [length]. lia.
Qed.

Lemma ecg_extract_packed_length data base k :
  0 <= base -> base + 2 * Z.of_nat k <= len data ->
  length (ecg_extract data (fun j => base + j * 2) (Z.of_nat k)) = k.
Proof.
  intros Hbase. unfold ecg_extract. rewrite length_fmap.
  induction k as [|k IH]; intros Hlen; [reflexivity|].
  replace (Z.of_nat (S k)) with (Z.of_nat k + 1) by lia.
  rewrite seqZ_app by lia. rewrite fmap_app, filter_app, length_app.
  rewrite IH by lia.
  change (seqZ (0 + Z.of_nat k) 1) with [0 + Z.of_nat k].
  cbn [fmap list_fmap]. rewrite filter_cons, filter_nil.
  rewrite decide_True by lia. cbn [length]. lia.
Qed.

Lemma ecg_extract_packed_length_Z data i n :
  0 <= i -> 0 < n -> (i + 1) * (2 * n) <= len data ->
  length (ecg_extract data (fun j => (i * 2 * n) + (j * 2)) n) = Z.to_nat n.
Proof.
  intros Hi Hn Hlen.
  pose proof (ecg_extract_packed_length data (i * 2 * n) (Z.to_nat n)) as H.
  rewrite Z2Nat.id in H by lia. apply H; nia.
Qed.

Lemma mapM_result_ok {A B} (f : A -> result B) (l : list A) :
  (forall x, x ∈ l -> exists y, f x = Ok y) ->
  exists ys, mapM f l = Ok ys /\ length ys = length l.
Proof.
  induction l as [|x l IH]; intros Hf; cbn [mapM].
  - exists []. split; reflexivity.
  - destruct (Hf x) as [y Hy]; [by left|]. rewrite Hy. cbn.
    destruct IH as (ys & -> & Hl); [intros x' Hx'; apply Hf; by right|].
    cbn. exists (y :: ys). split; [reflexivity|]. cbn [length]. lia.
Qed.

Lemma list_get_ok (l : list Z) n i :
  length l = Z.to_nat n -> i ∈ seqZ 0 n -> exists x, list_get l i = Ok x.
Proof.
  intros Hl Hi. apply elem_of_seqZ in Hi. unfold list_get.
  destruct (l !! Z.to_nat i) as [x|] eqn:E; [eauto|].
  apply lookup_ge_None in E. lia.
Qed.

(** The derived leads of a 3-lead set with [n > 0] samples per lead: nine
    more leads of [n] samples each, the three given leads kept. *)
Lemma reconstruct_12_ecg_leads_ok e0 e1 e2 n :
  0 < n -> length e0 = Z.to_nat n -> length e1 = Z.to_nat n ->
  exists aVR aVL aVF v1 v2 v3 v4 v5 v6,
    _reconstruct_12_ecg_leads
      (<["III" := e2]> (<["II" := e1]> (<["I" := e0]> ∅)))
    = Ok (<["V6" := v6]> (<["V5" := v5]> (<["V4" := v4]> (<["V3" := v3]>
         (<["V2" := v2]> (<["V1" := v1]> (<["aVF" := aVF]> (<["aVL" := aVL]>
         (<["aVR" := aVR]>
         (<["III" := e2]> (<["II" := e1]> (<["I" := e0]> ∅))))))))))))
    /\ Forall (fun l : list Z => length l = Z.to_nat n)
         [aVR; aVL; aVF; v1; v2; v3; v4; v5; v6].
Proof.
  intros Hn H0 H1. unfold _reconstruct_12_ecg_leads. cbn [fold_left].
  repeat (rewrite ?lookup_insert_eq; rewrite ?lookup_insert_ne by done).
  rewrite ?lookup_insert_eq. unfold default. cbn [from_option id].
  unfold lead_or_zeros.
  repeat (rewrite ?lookup_insert_eq; rewrite ?lookup_insert_ne by done).
  rewrite ?lookup_insert_eq. unfold default. cbn [from_option id].
  assert (Hlen0 : len e0 = n) by (unfold len; lia).
  rewrite Hlen0. rewrite !(proj2 (Z.eqb_neq n 0)) by lia.
  rewrite (proj2 (Z.ltb_lt 0 n)) by lia.
  assert (Hseq : length (seqZ 0 n) = Z.to_nat n) by apply length_seqZ.
  pose proof (list_get_ok e0 n) as G0. pose proof (list_get_ok e1 n) as G1.
  destruct (mapM_result_ok
    (fun i => a ← list_get e0 i; b ← list_get e1 i; Ok (- (a + b) / 2))
    (seqZ 0 n)) as (aVR & -> & HaVR).
  { intros i Hi. destruct (G0 i H0 Hi) as [a ->], (G1 i H1 Hi) as [b ->].
    cbn. eauto. }
  cbn [mbind result_bind].
  destruct (mapM_result_ok
    (fun i => a ← list_get e0 i; b ← list_get e1 i; Ok (a - b / 2))
    (seqZ 0 n)) as (aVL & -> & HaVL).
  { intros i Hi. destruct (G0 i H0 Hi) as [a ->], (G1 i H1 Hi) as [b ->].
    cbn. eauto. }
  cbn [mbind result_bind].
  destruct (mapM_result_ok
    (fun i => b ← list_get e1 i; a ← list_get e0 i; Ok (b - a / 2))
    (seqZ 0 n)) as (aVF & -> & HaVF).
  { intros i Hi. destruct (G0 i H0 Hi) as [a ->], (G1 i H1 Hi) as [b ->].
    cbn. eauto. }
  cbn [mbind result_bind].
  destruct (mapM_result_ok
    (fun i => b ← list_get e1 i; Ok (b / 4)) (seqZ 0 n))
    as (base & -> & Hbase).
  { intros i Hi. destruct (G1 i H1 Hi) as [b ->]. cbn. eauto. }
  cbn [mbind result_bind].
  assert (Hb : length base = Z.to_nat n) by lia.
  pose proof (fun i => list_get_ok base n i Hb) as Gb.
  assert (Hv : forall g : Z -> Z -> Z,
    exists v, mapM (fun i => s ← list_get base i; Ok (g s i)) (seqZ 0 n)
              = Ok v /\ length v = Z.to_nat n).
  { intros g. destruct (mapM_result_ok
      (fun i => s ← list_get base i; Ok (g s i)) (seqZ 0 n))
      as (v & Hv & Hl).
    - intros i Hi. destruct (Gb i Hi) as [s ->]. cbn. eauto.
    - exists v. split; [exact Hv|lia]. }
  destruct (Hv (fun s i => s - (i mod 10) * 5)) as (v1 & -> & Hv1).
  cbn [mbind result_bind].
  destruct (Hv (fun s i => s - (i mod 8) * 3)) as (v2 & -> & Hv2).
  cbn [mbind result_bind].
  destruct (Hv (fun s i => s - (i mod 6) * 2)) as (v3 & -> & Hv3).
  cbn [mbind result_bind].
  destruct (Hv (fun s i => s - (i mod 4) * 1)) as (v4 & -> & Hv4).
  cbn [mbind result_bind].
  destruct (Hv (fun s i => s + (i mod 4) * 1)) as (v5 & -> & Hv5).
  cbn [mbind result_bind].
  destruct (Hv (fun s i => s + (i mod 6) * 2)) as (v6 & -> & Hv6).
  cbn [mbind result_bind].
  exists aVR, aVL, aVF, v1, v2, v3, v4, v5, v6.
  split; [reflexivity|]. repeat constructor; lia.
Qed.

(** X27. On at least 6 bytes [_decompress_ecg_leads_3lead] returns twelve
    leads of [len data / 6] samples each, 24 bytes per sample index, and
    the first three leads are the bytes of the input they were read
    from. *)
Theorem decompress_ecg_leads_3lead_layout data :
  6 <= len data ->
  exists out,
    _decompress_ecg_leads_3lead data = Ok out /\
    len out = 24 * (len data / 6) /\
    take (Z.to_nat (6 * (len data / 6))) out
    = take (Z.to_nat (6 * (len data / 6))) data.
Proof.
  intros Hge. unfold _decompress_ecg_leads_3lead.
  destruct (Z.ltb_spec (len data) 6) as [|_]; [lia|].
  assert (Hn : 0 < len data / 6) by (apply Z.div_str_pos; lia).
  assert (Hle : 6 * (len data / 6) <= len data) by (apply Z.mul_div_le; lia).
  set (n := len data / 6) in *.
  unfold ecg_packed_leads.
  let x := eval vm_compute in (enumerate ["I"; "II"; "III"]) in
    change (enumerate ["I"; "II"; "III"]) with x.
  cbn [fold_left].
  set (e0 := ecg_extract data (fun j => 0 * 2 * n + j * 2) n).
  set (e1 := ecg_extract data (fun j => 1 * 2 * n + j * 2) n).
  set (e2 := ecg_extract data (fun j => 2 * 2 * n + j * 2) n).
  destruct (reconstruct_12_ecg_leads_ok e0 e1 e2 n Hn)
    as (aVR & aVL & aVF & v1 & v2 & v3 & v4 & v5 & v6 & -> & Hlens).
  { apply ecg_extract_packed_length_Z; lia. }
  { apply ecg_extract_packed_length_Z; lia. }
  cbn [mbind result_bind].
  unfold _serialize_ecg_samples. rewrite serialize_leads_standard_order.
  subst e0 e1 e2.
  rewrite (serialize_packed_lead_Z data 0 n) by lia. cbn [mbind result_bind].
  rewrite (serialize_packed_lead_Z data 1 n) by lia. cbn [mbind result_bind].
  rewrite (serialize_packed_lead_Z data 2 n) by lia. cbn [mbind result_bind].
  set (c := Z.to_nat (2 * n)). cbn [app].
  change (Z.to_nat 0) with 0%nat. change (Z.to_nat 1) with 1%nat.
  change (Z.to_nat 2) with 2%nat.
  change (drop (0 * c) data) with data.
  replace (take c data) with (take (1 * c) data) by (f_equal; lia).
  rewrite !take_chunk.
  repeat match goal with
  | |- context [serialize_lead ?o ?l] =>
      let o' := fresh "o" in let Ho := fresh "Ho" in let Hl := fresh "Hl" in
      destruct (serialize_lead_length l o) as (o' & Ho & Hl);
      rewrite Ho; cbn [mbind result_bind]
  end.
  eexists. split; [reflexivity|].
  apply Forall_cons in Hlens as [L1 Hlens].
  apply Forall_cons in Hlens as [L2 Hlens].
  apply Forall_cons in Hlens as [L3 Hlens].
  apply Forall_cons in Hlens as [L4 Hlens].
  apply Forall_cons in Hlens as [L5 Hlens].
  apply Forall_cons in Hlens as [L6 Hlens].
  apply Forall_cons in Hlens as [L7 Hlens].
  apply Forall_cons in Hlens as [L8 Hlens].
  apply Forall_cons in Hlens as [L9 _].
  assert (Htake : length (take (3 * c) data) = (3 * c)%nat).
  { rewrite length_take. unfold len in Hle. lia. }
  split.
  - unfold len. rewrite !length_app, Htake. lia.
  - rewrite <- !app_assoc.
    replace (Z.to_nat (6 * n)) with (3 * c)%nat by lia.
    rewrite take_app_length'; [reflexivity|symmetry; exact Htake].
Qed.

Lemma decompress_ecg_leads_3lead_layout_witness :
  exists out,
    _decompress_ecg_leads_3lead
      [x01; x00; x02; x00; x03; x00; xff; xff; x05; x00; x06; x00; x09]
    = Ok out /\
    len out
    = 24 * (len [x01; x00; x02; x00; x03; x00; xff; xff; x05; x00; x06; x00;
                 x09] / 6) /\
    take (Z.to_nat (6 * (len [x01; x00; x02; x00; x03; x00; xff; xff; x05;
                              x00; x06; x00; x09] / 6))) out
    = take (Z.to_nat (6 * (len [x01; x00; x02; x00; x03; x00; xff; xff; x05;
                                x00; x06; x00; x09] / 6)))
        [x01; x00; x02; x00; x03; x00; xff; xff; x05; x00; x06; x00; x09].
Proof.
  apply (decompress_ecg_leads_3lead_layout
           [x01; x00; x02; x00; x03; x00; xff; xff; x05; x00; x06; x00; x09]).
  vm_compute. discriminate.
Defined.

(** ** Rice decoder *)

Lemma rice_unary_reachable blob fuel : forall c bs count,
  BitStream.reachable blob c bs -> 0 <= count ->
  (Z.to_nat (256 - count) < fuel)%nat ->
  exists u bs' c',
    rice_unary fuel bs count = Some (u, bs') /\
    BitStream.reachable blob c' bs' /\ c + BitStream.takes_bit bs <= c'.
Proof.
  induction fuel as [|fuel IH]; intros c bs count Hr Hcount Hfuel; [lia|].
  cbn [rice_unary].
  pose proof (BitStream.reach_read_bit _ _ _ Hr) as Hr1.
  destruct (BitStream.read_bit bs) as [bit bs1]. cbn [snd] in Hr1.
  destruct (bit =? 1); [|eauto 6 with lia].
  destruct (Z.ltb_spec 255 (count + 1)); [eauto 6 with lia|].
  destruct (IH _ bs1 (count + 1) Hr1) as (u & bs' & c' & Hu & Hr' & Hle);
    [lia|lia|].
  exists u, bs', c'. split; [exact Hu|]. split; [exact Hr'|].
  assert (0 <= BitStream.takes_bit bs1)
    by (unfold BitStream.takes_bit; destruct (BitStream.has_bits bs1 1); lia).
  lia.
Qed.

Lemma rice_loop_returns blob m fuel : forall c bs out,
  BitStream.reachable blob c bs ->
  (Z.to_nat (8 * len blob - c) < fuel)%nat ->
  exists o, rice_loop fuel m bs out = Some (Ok (out ++ o)) /\
            (len o) mod 2 = 0.
Proof.
  induction fuel as [|fuel IH]; intros c bs out Hr Hfuel; [lia|].
  cbn [rice_loop].
  destruct (BitStream.has_bits bs 1) eqn:Hh;
    [|exists []; by rewrite app_nil_r].
  destruct (rice_unary_reachable blob 257 c bs 0 Hr)
    as (u & bs1 & c1 & -> & Hr1 & Hle1); [lia|lia|].
  unfold BitStream.takes_bit in Hle1. rewrite Hh in Hle1.
  cbv zeta.
  assert (Hbin : exists b bs2 c2,
    (if 0 <? bit_length (m - 1)
     then if BitStream.has_bits bs1 (bit_length (m - 1))
          then BitStream.read_bits bs1 (bit_length (m - 1)) else (0, bs1)
     else (0, bs1)) = (b, bs2) /\
    BitStream.reachable blob c2 bs2 /\ c1 <= c2).
  { destruct (0 <? bit_length (m - 1)); [|eauto 6 with lia].
    destruct (BitStream.has_bits bs1 _); [|eauto 6 with lia].
    destruct (read_bits_reachable blob c1 bs1 (bit_length (m - 1)) Hr1)
      as (c2 & Hr2 & Hle2).
    destruct (BitStream.read_bits bs1 _) as [b bs2]. eauto 6. }
  destruct Hbin as (b & bs2 & c2 & -> & Hr2 & Hle2).
  rewrite bytearray_append_ok by apply land_255_range.
  rewrite bytearray_append_ok by apply land_255_range.
  destruct (reachable_inv _ _ _ Hr2) as (_ & _ & Hc2 & _).
  match goal with |- context [rice_loop fuel m bs2 ?o2] =>
    destruct (IH c2 bs2 o2 Hr2) as (o & Ho & Hev); [lia|] end.
  eexists (_ :: _ :: o). split.
  - rewrite Ho, <- !app_assoc. reflexivity.
  - unfold len in *. cbn [length].
    replace (Z.of_nat (S (S (length o)))) with (Z.of_nat (length o) + 1 * 2)
      by lia.
    rewrite Z_mod_plus_full. exact Hev.
Qed.

(** X28. With any parameter [m], [decompress_rice] returns on every input
    (each value takes at least one bit from the stream) and never raises;
    the output holds two bytes per decoded value. *)
Theorem decompress_rice_returns m data :
  exists out, decompress_rice m data = Some (Ok out) /\ (len out) mod 2 = 0.
Proof.
  unfold decompress_rice.
  destruct (rice_loop_returns data m (S (8 * length data)) 0
              (BitStream.init data) []) as (o & Ho & Hev).
  - constructor.
  - unfold len. lia.
  - exists o. split; [exact Ho|exact Hev].
Qed.

(** X29. The decode loop of each of the three Huffman variants ends: every
    iteration that goes on takes at least one bit from the stream. *)
Theorem huffman_variants_terminate data :
  is_Some (_decompress_huffman_standard data) /\
  is_Some (_decompress_huffman_canonical data) /\
  is_Some (_decompress_huffman_simple data).
Proof. apply huffman_decoders_terminate. Qed.

(** ** VLQ groups *)








